(** * Shopkeeper Product Substitution Assistant: the search and scoring core

    A shallow embedding of [app.py]: [load_kg], the helper accessors,
    [find_alternatives], [score_candidate], [categories_are_similar] and
    [human_explanation], over a model of the [networkx.DiGraph] that
    [load_kg] builds.  The Streamlit page [main] is not part of it.

    Conventions of the embedding.
    - The graph is threaded as state through every call, so that a write to
      it would be visible; Python exceptions are an explicit outcome.
    - Numbers (prices, scores) are exact rationals [Q]; the rounding of
      Python's binary floating point is not modelled.  Numeric equality is
      [Qeq] ([==]).  The range of a [float] is modelled where the program
      does arithmetic on prices (line 153): a whole price is a Python [int],
      of any size, and an [int] that is too large for a [float] raises
      [OverflowError] there.
    - Node attributes are typed as the data model types them: a [price] is a
      number, [brand], [category], [type] and [name] are strings, [in_stock]
      is a boolean, [tags] is a list of strings; each may be missing. *)

From Stdlib Require Import QArith Qabs Lqa.
From stdpp Require Import gmap strings list sorting.

Open Scope string_scope.
Open Scope list_scope.
Open Scope nat_scope.

(** ** Python outcomes and the graph-state monad *)

Inductive exn :=
  | KeyError | TypeError | AttributeError | NetworkXError
  | OverflowError | ZeroDivisionError.

(** [OutOfFuel] is not a Python outcome: it is what a fuelled loop of the
    embedding yields when its fuel is too small (see [bfs_fuel]). *)
Inductive res (A : Type) :=
  | Ok (a : A)
  | Raise (e : exn)
  | OutOfFuel.
Arguments Ok {A} a.
Arguments Raise {A} e.
Arguments OutOfFuel {A}.

(** ** The data model *)

(** The attribute dict of a node, [G.nodes[n]]: a field is [None] when the
    key is missing. *)
Record attrs := Attrs {
  a_type : option string;
  a_name : option string;
  a_price : option Q;
  a_brand : option string;
  a_in_stock : option bool;
  a_tags : option (list string);
  a_category : option string
}.

Definition no_attrs : attrs := Attrs None None None None None None None.

(** The attribute dict of an edge; [load_kg] only ever sets the key ["type"]. *)
Record edge_data := EdgeData { ed_type : option string }.

Record edge := Edge { e_src : string; e_dst : string; e_data : edge_data }.

(** A [networkx.DiGraph]: the node dict, and the edges in insertion order of
    their (source, target) pair.  A DiGraph holds at most one edge per
    ordered pair; [successors] and [predecessors] enumerate in insertion
    order. *)
Record DiGraph := Graph {
  g_node : gmap string attrs;
  g_edges : list edge
}.

Definition empty_graph : DiGraph := Graph ∅ [].

(** Computations over the graph: state passing with exceptions. *)
Definition Py (A : Type) : Type := DiGraph -> DiGraph * res A.

Definition ret {A} (a : A) : Py A := fun G => (G, Ok a).
Definition raise {A} (e : exn) : Py A := fun G => (G, Raise e).
Definition lift {A} (r : res A) : Py A := fun G => (G, r).
Definition bind {A B} (m : Py A) (k : A -> Py B) : Py B :=
  fun G =>
    match m G with
    | (G', Ok a) => k a G'
    | (G', Raise e) => (G', Raise e)
    | (G', OutOfFuel) => (G', OutOfFuel)
    end.
Definition reads {A} (f : DiGraph -> res A) : Py A := fun G => (G, f G).
Definition modify (f : DiGraph -> DiGraph) : Py unit := fun G => (f G, Ok tt).

(** [try: m except Exception: h] *)
Definition try_except {A} (m : Py A) (h : Py A) : Py A :=
  fun G =>
    match m G with
    | (G', Raise _) => h G'
    | r => r
    end.

Notation "x <- m ;; k" := (bind m (fun x => k))
  (at level 60, m at next level, right associativity).

(** The value a computation returns from graph [G], and the graph it leaves. *)
Definition eval {A} (m : Py A) (G : DiGraph) : res A := snd (m G).
Definition graph_after {A} (m : Py A) (G : DiGraph) : DiGraph := fst (m G).

(** ** Building a graph: [add_node], [add_edge], [load_kg] *)

Definition or_old {A} (new old : option A) : option A :=
  match new with Some _ => new | None => old end.

(** [dict.update]: keys of [props] overwrite, other keys stay. *)
Definition attrs_update (old props : attrs) : attrs :=
  Attrs (or_old (a_type props) (a_type old)) (or_old (a_name props) (a_name old))
        (or_old (a_price props) (a_price old)) (or_old (a_brand props) (a_brand old))
        (or_old (a_in_stock props) (a_in_stock old)) (or_old (a_tags props) (a_tags old))
        (or_old (a_category props) (a_category old)).

(** [G.add_node(n, **props)] *)
Definition add_node (n : string) (props : attrs) (G : DiGraph) : DiGraph :=
  Graph (<[n := attrs_update (default no_attrs (g_node G !! n)) props]> (g_node G))
        (g_edges G).

Definition same_pair (u v : string) (e : edge) : bool :=
  bool_decide (e_src e = u) && bool_decide (e_dst e = v).

Fixpoint set_edge (u v : string) (d : edge_data) (es : list edge) : list edge :=
  match es with
  | [] => [Edge u v d]
  | e :: es' =>
      if same_pair u v e
      then Edge u v (EdgeData (or_old (ed_type d) (ed_type (e_data e)))) :: es'
      else e :: set_edge u v d es'
  end.

(** [G.add_edge(u, v, type=ty)]: missing end points are created with no
    attributes; an existing edge has its attribute overwritten. *)
Definition add_edge (u v : string) (ty : string) (G : DiGraph) : DiGraph :=
  let G1 := add_node u no_attrs G in
  let G2 := add_node v no_attrs G1 in
  Graph (g_node G2) (set_edge u v (EdgeData (Some ty)) (g_edges G2)).

(** [load_kg] on the parsed JSON: [nodes] are the (id, props) entries,
    [edges] the (source, target, type) entries; a missing type is
    ["RELATED"]. *)
Definition load_kg (nodes : list (string * attrs))
    (edges : list (string * string * option string)) : Py unit :=
  _ <- modify (fun G => foldl (fun G n => add_node n.1 n.2 G) G nodes) ;;
  modify (fun G => foldl (fun G e => add_edge e.1.1 e.1.2 (default "RELATED" e.2) G) G edges).

Definition kg (nodes : list (string * attrs))
    (edges : list (string * string * option string)) : DiGraph :=
  graph_after (load_kg nodes edges) empty_graph.

(** A DiGraph invariant: one edge per ordered pair, end points are nodes. *)
Definition wf_graph (G : DiGraph) : Prop :=
  NoDup ((fun e => (e_src e, e_dst e)) <$> g_edges G) ∧
  Forall (fun e => is_Some (g_node G !! e_src e) ∧ is_Some (g_node G !! e_dst e)) (g_edges G).

(** ** The read interface of the graph *)

(** [n in G] *)
Definition has_node (n : string) : Py bool :=
  reads (fun G => Ok (bool_decide (is_Some (g_node G !! n)))).

(** [G.nodes[n]] *)
Definition node_attrs (n : string) : Py attrs :=
  reads (fun G => match g_node G !! n with Some a => Ok a | None => Raise KeyError end).

Definition succ_list (G : DiGraph) (n : string) : list string :=
  e_dst <$> filter (fun e => e_src e = n) (g_edges G).

Definition pred_list (G : DiGraph) (n : string) : list string :=
  e_src <$> filter (fun e => e_dst e = n) (g_edges G).

(** [list(G.successors(n))] and [list(G.predecessors(n))] *)
Definition successors (n : string) : Py (list string) :=
  reads (fun G => match g_node G !! n with
                  | Some _ => Ok (succ_list G n)
                  | None => Raise NetworkXError
                  end).

Definition predecessors (n : string) : Py (list string) :=
  reads (fun G => match g_node G !! n with
                  | Some _ => Ok (pred_list G n)
                  | None => Raise NetworkXError
                  end).

Definition find_edge (G : DiGraph) (u v : string) : option edge_data :=
  e_data <$> head (filter (fun e => same_pair u v e = true) (g_edges G)).

(** [G.has_edge(u, v)] *)
Definition has_edge (u v : string) : Py bool :=
  reads (fun G => Ok (bool_decide (is_Some (find_edge G u v)))).

(** [G.get_edge_data(u, v)]: on a DiGraph, the attribute dict of the edge
    (or [None]). *)
Definition get_edge_data (u v : string) : Py (option edge_data) :=
  reads (fun G => Ok (find_edge G u v)).

(** [d.values()] of an edge attribute dict: the attribute values, here the
    type label when the key is present.  On [None] there is no [values]. *)
Definition dict_values (d : option edge_data) : res (list string) :=
  match d with
  | Some d => Ok (match ed_type d with Some t => [t] | None => [] end)
  | None => Raise AttributeError
  end.

(** [e.get(key)] where [e] is a [str]: strings have no attribute [get]. *)
Definition str_get (e : string) (key : string) : res (option string) :=
  Raise AttributeError.

(** ** Helper accessors *)

Definition is_product (node : string) : Py bool :=
  a <- node_attrs node ;; ret (bool_decide (a_type a = Some "product")).

Definition get_price (node : string) : Py (option Q) :=
  a <- node_attrs node ;; ret (a_price a).

Definition in_stock (node : string) : Py bool :=
  a <- node_attrs node ;; ret (default false (a_in_stock a)).

Definition get_brand (node : string) : Py (option string) :=
  a <- node_attrs node ;; ret (a_brand a).

Definition get_tags (node : string) : Py (gset string) :=
  a <- node_attrs node ;; ret (list_to_set (default [] (a_tags a))).

Definition get_category (node : string) : Py (option string) :=
  a <- node_attrs node ;; ret (a_category a).

(** Line 79 calls [in_stock(nbr)] with one positional argument, while
    [in_stock] is defined with two ([node], [G]): the call raises
    [TypeError] before the body of [in_stock] runs. *)
Definition in_stock_without_graph (node : string) : Py bool :=
  raise TypeError.

(** Truth value of an optional string: [None] and [""] are false. *)
Definition truthy (s : option string) : bool :=
  match s with
  | Some s => negb (bool_decide (s = ""))
  | None => false
  end.

(** ** Similarity of categories *)

(** [for e in values: if e.get("type") == "SIMILAR_TO": return True];
    [Ok true] when the loop returned [True], [Ok false] when it ran out. *)
Fixpoint scan_edge_values (vals : list string) : res bool :=
  match vals with
  | [] => Ok false
  | e :: rest =>
      match str_get e "type" with
      | Ok t => if bool_decide (t = Some "SIMILAR_TO") then Ok true else scan_edge_values rest
      | Raise x => Raise x
      | OutOfFuel => OutOfFuel
      end
  end.

(** [if G.has_edge(a, b): for e in G.get_edge_data(a, b).values(): ...] *)
Definition similar_edge (a b : string) : Py bool :=
  h <- has_edge a b ;;
  if h then
    d <- get_edge_data a b ;;
    vals <- lift (dict_values d) ;;
    lift (scan_edge_values vals)
  else ret false.

Definition categories_are_similar (cat_a cat_b : option string) : Py bool :=
  if negb (truthy cat_a) || negb (truthy cat_b) then ret false
  else if bool_decide (cat_a = cat_b) then ret true
  else
    let a := default "" cat_a in
    let b := default "" cat_b in
    fwd <- similar_edge a b ;;
    if fwd then ret true
    else
      bwd <- similar_edge b a ;;
      if bwd then ret true else ret false.

(** ** Scoring *)

(** The accumulator of [score_candidate]: the local variables [score] and
    [reasons]. *)
Definition acc : Type := Q * list string.

(** [max(a, b)] of Python: the first argument unless the second is larger. *)
Definition py_max (a b : Q) : Q := if Qle_bool b a then a else b.

(** A number at line 153.  A JSON number is an [int] when it is written
    without fraction and exponent, a [float] otherwise: the embedding takes
    a whole price as an [int].  Ints are unbounded; a float is taken by its
    exact value (neither its rounding nor an infinite result is modelled),
    and is of magnitude below [float_limit]. *)
Inductive number :=
  | PyInt (z : Z)
  | PyFloat (x : Q).

Definition number_of (p : Q) : number :=
  if (Qnum p mod Z.pos (Qden p) =? 0)%Z then PyInt (Qnum p / Z.pos (Qden p))
  else PyFloat p.

Definition value (n : number) : Q :=
  match n with
  | PyInt z => inject_Z z
  | PyFloat x => x
  end.

(** [2^1024 - 2^970]: an int of this magnitude or more rounds to no float. *)
Definition float_limit : Z := 2 ^ 1024 - 2 ^ 970.

Definition and_then {A B} (r : res A) (k : A -> res B) : res B :=
  match r with
  | Ok a => k a
  | Raise e => Raise e
  | OutOfFuel => OutOfFuel
  end.

(** The conversion of an operand to [float]:
    [OverflowError: int too large to convert to float]. *)
Definition as_float (n : number) : res Q :=
  match n with
  | PyFloat x => Ok x
  | PyInt z => if (float_limit <=? Z.abs z)%Z then Raise OverflowError else Ok (inject_Z z)
  end.

(** [a - b]: an [int] for two ints; otherwise the int operand is converted
    and the result is a [float]. *)
Definition py_sub (a b : number) : res number :=
  match a, b with
  | PyInt x, PyInt y => Ok (PyInt (x - y))
  | _, _ =>
      and_then (as_float a) (fun x =>
      and_then (as_float b) (fun y => Ok (PyFloat (x - y)%Q)))
  end.

(** [max(1.0, b)] *)
Definition max_one (b : number) : number :=
  if Qle_bool (value b) 1.0 then PyFloat 1.0%Q else b.

(** [a / b], a [float].  The quotient of two ints is rounded as a whole:
    [OverflowError: integer division result too large for a float] from
    the same bound on.  Otherwise the int operand is converted first. *)
Definition py_truediv (a b : number) : res Q :=
  match a, b with
  | PyInt x, PyInt y =>
      if (y =? 0)%Z then Raise ZeroDivisionError
      else
        let q := (inject_Z x / inject_Z y)%Q in
        if Qle_bool (inject_Z float_limit) (Qabs q) then Raise OverflowError else Ok q
  | _, _ =>
      and_then (as_float a) (fun x =>
      and_then (as_float b) (fun y =>
        if Qeq_bool y 0 then Raise ZeroDivisionError else Ok (x / y)%Q))
  end.

(** [(cand_price - req_price) / max(1.0, req_price)] *)
Definition excess (rp cp : Q) : res Q :=
  and_then (py_sub (number_of cp) (number_of rp)) (fun d =>
  py_truediv d (max_one (number_of rp))).

Fixpoint insert_string (x : string) (l : list string) : list string :=
  match l with
  | [] => [x]
  | y :: l' => if String.leb x y then x :: y :: l' else y :: insert_string x l'
  end.

(** [sorted(s)] of a set of strings *)
Definition sorted_strings (s : gset string) : list string :=
  foldr insert_string [] (elements s).

(** [','.join(l)] *)
Definition join_comma (l : list string) : string := String.concat "," l.

(** Lines 105-115: the category rule. *)
Definition category_rule (requested candidate : string) (st : acc) : Py acc :=
  req_cat <- get_category requested ;;
  cand_cat <- get_category candidate ;;
  if truthy req_cat && truthy cand_cat && bool_decide (req_cat = cand_cat)
  then ret ((st.1 + 3.0)%Q, st.2 ++ ["same_category"])
  else
    sim <- categories_are_similar req_cat cand_cat ;;
    if sim then ret ((st.1 + 1.5)%Q, st.2 ++ ["related_category"]) else ret st.

(** Lines 117-128: the brand rule. *)
Definition brand_rule (requested candidate : string) (optional_brand : option string)
    (st : acc) : Py acc :=
  if truthy optional_brand then
    cb <- get_brand candidate ;;
    if bool_decide (cb = optional_brand)
    then ret ((st.1 + 1.0)%Q, st.2 ++ ["brand_match"])
    else ret (st.1, st.2 ++ ["different_brand"])
  else
    cb <- get_brand candidate ;;
    rb <- get_brand requested ;;
    if bool_decide (cb = rb)
    then ret ((st.1 + 0.5)%Q, st.2 ++ ["same_brand"])
    else ret st.

(** Lines 130-141: the tag rule. *)
Definition tags_rule (candidate : string) (required_tags : gset string)
    (st : acc) : Py acc :=
  cand_tags <- get_tags candidate ;;
  let matched_tags := required_tags ∩ cand_tags in
  if bool_decide (required_tags ≠ ∅) then
    if bool_decide (matched_tags = required_tags)
    then ret ((st.1 + 2.0)%Q, st.2 ++ ["all_required_tags_matched"])
    else
      let missing := required_tags ∖ matched_tags in
      ret ((st.1 + 0.5 * inject_Z (Z.of_nat (size matched_tags)))%Q,
           st.2 ++ ["missing_tags:" +:+ join_comma (sorted_strings missing)])
  else ret st.

(** Lines 143-156: the price rule, inside [try ... except Exception: pass].
    When line 153 raises, [score] and [reasons] are as they were. *)
Definition price_rule (requested candidate : string) (st : acc) : Py acc :=
  try_except
    (req_price <- get_price requested ;;
     cand_price <- get_price candidate ;;
     match req_price, cand_price with
     | Some rp, Some cp =>
         if Qle_bool cp rp
         then ret ((st.1 + 1.0)%Q, st.2 ++ ["cheaper_or_equal_price"])
         else
           x <- lift (excess rp cp) ;;
           ret ((st.1 - 0.5 * x)%Q, st.2 ++ ["more_expensive"])
     | _, _ => ret st
     end)
    (ret st).

Definition score_candidate (requested candidate : string) (required_tags : gset string)
    (optional_brand : option string) : Py acc :=
  let st := (0.0%Q, []) in
  st <- category_rule requested candidate st ;;
  st <- brand_rule requested candidate optional_brand st ;;
  st <- tags_rule candidate required_tags st ;;
  st <- price_rule requested candidate st ;;
  ret st.

(** What one rule adds: a number and at most one reason code. *)
Definition contribution : Type := Q * option string.

Definition add_contribution (st : acc) (c : contribution) : acc :=
  ((st.1 + c.1)%Q, st.2 ++ option_list c.2).

(** What each rule adds, read off its branches, for a requested node with
    attributes [ar] and a candidate with attributes [ac].  Only the category
    rule calls into the graph again. *)
Definition category_contribution (ar ac : attrs) : Py contribution :=
  let req_cat := a_category ar in
  let cand_cat := a_category ac in
  if truthy req_cat && truthy cand_cat && bool_decide (req_cat = cand_cat)
  then ret (3.0%Q, Some "same_category")
  else
    sim <- categories_are_similar req_cat cand_cat ;;
    ret (if sim then (1.5%Q, Some "related_category") else (0%Q, None)).

Definition brand_contribution (ar ac : attrs) (optional_brand : option string)
    : contribution :=
  if truthy optional_brand
  then if bool_decide (a_brand ac = optional_brand)
       then (1.0%Q, Some "brand_match") else (0%Q, Some "different_brand")
  else if bool_decide (a_brand ac = a_brand ar)
       then (0.5%Q, Some "same_brand") else (0%Q, None).

Definition tags_contribution (ac : attrs) (required_tags : gset string) : contribution :=
  let cand_tags : gset string := list_to_set (default [] (a_tags ac)) in
  let matched := required_tags ∩ cand_tags in
  if bool_decide (required_tags = ∅) then (0%Q, None)
  else if bool_decide (matched = required_tags)
       then (2.0%Q, Some "all_required_tags_matched")
       else ((0.5 * inject_Z (Z.of_nat (size matched)))%Q,
             Some ("missing_tags:" +:+
                   join_comma (sorted_strings (required_tags ∖ matched)))).

Definition price_contribution (ar ac : attrs) : contribution :=
  match a_price ar, a_price ac with
  | Some rp, Some cp =>
      if Qle_bool cp rp then (1.0%Q, Some "cheaper_or_equal_price")
      else match excess rp cp with
           | Ok x => ((- (0.5 * x))%Q, Some "more_expensive")
           | _ => (0%Q, None)
           end
  | _, _ => (0%Q, None)
  end.

(** The four contributions, in the order category, brand, tags, price, all
    of them taken, summed from [0.0] and their reasons concatenated. *)
Definition sum_of_rules (ar ac : attrs) (required_tags : gset string)
    (optional_brand : option string) : Py acc :=
  c1 <- category_contribution ar ac ;;
  let c2 := brand_contribution ar ac optional_brand in
  let c3 := tags_contribution ac required_tags in
  let c4 := price_contribution ar ac in
  ret ((0.0 + c1.1 + c2.1 + c3.1 + c4.1)%Q,
       option_list c1.2 ++ option_list c2.2 ++ option_list c3.2 ++ option_list c4.2).

(** Equality of outcomes up to the value of the score. *)
Definition acc_eq (r1 r2 : res acc) : Prop :=
  match r1, r2 with
  | Ok (s1, l1), Ok (s2, l2) => (s1 == s2)%Q ∧ l1 = l2
  | Raise e1, Raise e2 => e1 = e2
  | OutOfFuel, OutOfFuel => True
  | _, _ => False
  end.

(** ** Search and ranking *)

(** The parameters of [find_alternatives] other than the graph. *)
Record query := Query {
  requested_product_id : string;
  max_price : option Q;
  required_tags : option (list string);
  optional_brand : option string;
  max_results : Z
}.

(** An entry of the [candidates] list. *)
Record candidate := Candidate {
  c_product : string;
  c_score : Q;
  c_reasons : list string;
  c_path : list string
}.

(** The dict that [find_alternatives] returns: a key is [None] when absent. *)
Record result := Result {
  r_error : option string;
  r_exact_match : option string;
  r_alternatives : option (list candidate)
}.

(** An entry of the queue: [(node, dist, path)]. *)
Record qitem := QItem { q_node : string; q_dist : nat; q_path : list string }.

(** The local variables of the traversal.  [visited] is the Python set,
    kept as the list of its [visited.add] calls in order; [enqueued] is a
    ghost variable, the list of all [queue.append] calls so far. *)
Record bfs_state := BfsState {
  queue : list qitem;
  visited : list string;
  candidates : list candidate;
  enqueued : list qitem
}.

(** [p <= m] where [p] may be [None]: ordering [None] against a number
    raises [TypeError]. *)
Definition le_price (p : option Q) (m : Q) : res bool :=
  match p with
  | Some p => Ok (Qle_bool p m)
  | None => Raise TypeError
  end.

(** Lines 52-54 and again 82-84: [price_ok], [tags_ok] and [brand_ok] are
    all three computed, then combined with [and]. *)
Definition constraints_ok (node : string) (max_price : option Q)
    (required_tags : gset string) (optional_brand : option string) : Py bool :=
  price_ok <- match max_price with
              | None => ret true
              | Some m => p <- get_price node ;; lift (le_price p m)
              end ;;
  tags <- get_tags node ;;
  let tags_ok := bool_decide (required_tags ⊆ tags) in
  brand_ok <- match optional_brand with
              | None => ret true
              | Some b => cb <- get_brand node ;; ret (bool_decide (cb = Some b))
              end ;;
  ret (price_ok && tags_ok && brand_ok).

(** Lines 77-88: what a newly visited neighbour does to [candidates]. *)
Definition consider (q : query) (tags : gset string) (nbr : string)
    (new_path : list string) (cands : list candidate) : Py (list candidate) :=
  p <- is_product nbr ;;
  if p && bool_decide (nbr ≠ requested_product_id q) then
    s <- in_stock_without_graph nbr ;;
    if negb s then ret cands
    else
      ok <- constraints_ok nbr (max_price q) tags (optional_brand q) ;;
      if ok then
        sr <- score_candidate (requested_product_id q) nbr tags (optional_brand q) ;;
        ret (cands ++ [Candidate nbr sr.1 sr.2 new_path])
      else ret cands
  else ret cands.

(** A loop body or loop: from the locals and the graph to the locals it
    leaves (also when it raises) and the graph. *)
Definition Loop : Type := bfs_state -> DiGraph -> DiGraph * (bfs_state * res unit).

(** Lines 72-91: the body of [for nbr in neighbors]. *)
Definition visit (q : query) (tags : gset string) (dist : nat) (path : list string)
    (nbr : string) : Loop :=
  fun st G =>
    if bool_decide (nbr ∈ visited st) then (G, (st, Ok tt))
    else
      let st1 := BfsState (queue st) (visited st ++ [nbr]) (candidates st) (enqueued st) in
      let new_path := path ++ [nbr] in
      match consider q tags nbr new_path (candidates st1) G with
      | (G', Ok cands) =>
          let st2 := BfsState (queue st1) (visited st1) cands (enqueued st1) in
          if (dist + 1 <=? 4)%nat then
            let item := QItem nbr (dist + 1) new_path in
            (G', (BfsState (queue st2 ++ [item]) (visited st2) (candidates st2)
                           (enqueued st2 ++ [item]), Ok tt))
          else (G', (st2, Ok tt))
      | (G', Raise e) => (G', (st1, Raise e))
      | (G', OutOfFuel) => (G', (st1, OutOfFuel))
      end.

Fixpoint for_neighbors (q : query) (tags : gset string) (dist : nat) (path : list string)
    (neighbors : list string) : Loop :=
  fun st G =>
    match neighbors with
    | [] => (G, (st, Ok tt))
    | nbr :: rest =>
        match visit q tags dist path nbr st G with
        | (G', (st', Ok _)) => for_neighbors q tags dist path rest st' G'
        | stop => stop
        end
    end.

(** Line 70 *)
Definition neighbors_of (node : string) : Py (list string) :=
  s <- successors node ;;
  p <- predecessors node ;;
  ret (s ++ p).

(** Lines 67-91: [while queue]; one unit of fuel per [queue.popleft()]. *)
Fixpoint bfs_while (fuel : nat) (q : query) (tags : gset string) : Loop :=
  fun st G =>
    match queue st with
    | [] => (G, (st, Ok tt))
    | item :: rest =>
        match fuel with
        | O => (G, (st, OutOfFuel))
        | S fuel' =>
            let st0 := BfsState rest (visited st) (candidates st) (enqueued st) in
            match neighbors_of (q_node item) G with
            | (G1, Ok neighbors) =>
                match for_neighbors q tags (q_dist item) (q_path item) neighbors st0 G1 with
                | (G2, (st', Ok _)) => bfs_while fuel' q tags st' G2
                | stop => stop
                end
            | (G1, Raise e) => (G1, (st0, Raise e))
            | (G1, OutOfFuel) => (G1, (st0, OutOfFuel))
            end
        end
    end.

(** Every [popleft] takes an entry that was appended for a distinct node,
    and all of them but the first are end points of edges. *)
Definition bfs_fuel (G : DiGraph) : nat := S (2 * length (g_edges G)).

(** The sort key [(-x["score"], get_price(x["product"], G))]. *)
Definition sort_key : Type := Q * option Q.

(** [k1 < k2] on key tuples: the first components decide unless they are
    equal; then the second ones, where ordering involving [None] raises. *)
Definition key_lt (k1 k2 : sort_key) : res bool :=
  if Qeq_bool k1.1 k2.1 then
    match k1.2, k2.2 with
    | None, None => Ok false
    | Some p1, Some p2 => Ok (negb (Qle_bool p2 p1))
    | _, _ => Raise TypeError
    end
  else Ok (negb (Qle_bool k2.1 k1.1)).

Fixpoint decorate (cands : list candidate) : Py (list (sort_key * candidate)) :=
  match cands with
  | [] => ret []
  | x :: rest =>
      p <- get_price (c_product x) ;;
      ks <- decorate rest ;;
      ret (((- c_score x)%Q, p, x) :: ks)
  end.

(** [x] stood before the entries of [l] and goes before the first entry
    that is not smaller than it. *)
Fixpoint insert_by_key (x : sort_key * candidate) (l : list (sort_key * candidate))
    : res (list (sort_key * candidate)) :=
  match l with
  | [] => Ok [x]
  | y :: l' =>
      match key_lt y.1 x.1 with
      | Ok true =>
          match insert_by_key x l' with
          | Ok r => Ok (y :: r)
          | other => other
          end
      | Ok false => Ok (x :: y :: l')
      | Raise e => Raise e
      | OutOfFuel => OutOfFuel
      end
  end.

Fixpoint sort_by_key (l : list (sort_key * candidate)) : res (list (sort_key * candidate)) :=
  match l with
  | [] => Ok []
  | x :: l' =>
      match sort_by_key l' with
      | Ok s => insert_by_key x s
      | other => other
      end
  end.

(** [sorted(candidates, key=...)]: a stable sort on the keys. *)
Definition sorted_candidates (cands : list candidate) : Py (list candidate) :=
  ks <- decorate cands ;;
  s <- lift (sort_by_key ks) ;;
  ret (snd <$> s).

(** [l[:k]] *)
Definition slice_to {A} (l : list A) (k : Z) : list A :=
  if (0 <=? k)%Z then take (Z.to_nat k) l
  else take (length l - Z.to_nat (- k)) l.

(** Lines 47-56: [Some r] when the function returns [r] before the
    traversal. *)
Definition early_return (q : query) (tags : gset string) : Py (option result) :=
  let requested := requested_product_id q in
  present <- has_node requested ;;
  if negb present
  then ret (Some (Result (Some "Requested product not found in KG.") None None))
  else
    p <- is_product requested ;;
    s <- (if p then in_stock requested else ret false) ;;
    if p && s then
      ok <- constraints_ok requested (max_price q) tags (optional_brand q) ;;
      if ok then ret (Some (Result None (Some requested) None)) else ret None
    else ret None.

(** Lines 93-96 *)
Definition rank (q : query) (cands : list candidate) : Py result :=
  s <- sorted_candidates cands ;;
  let top := slice_to s (max_results q) in
  ret (Result None None (Some top)).

Definition initial_state (requested : string) : bfs_state :=
  let item := QItem requested 0 [requested] in
  BfsState [item] [requested] [] [item].

(** [find_alternatives], with the locals of the traversal where it ended
    ([None] when no traversal was started). *)
Definition find_alternatives_run (q : query)
    : DiGraph -> DiGraph * (option bfs_state * res result) :=
  fun G =>
    let tags : gset string := list_to_set (default [] (required_tags q)) in
    match early_return q tags G with
    | (G1, Ok (Some r)) => (G1, (None, Ok r))
    | (G1, Ok None) =>
        match bfs_while (bfs_fuel G1) q tags (initial_state (requested_product_id q)) G1 with
        | (G2, (st, Ok _)) =>
            let '(G3, r) := rank q (candidates st) G2 in (G3, (Some st, r))
        | (G2, (st, Raise e)) => (G2, (Some st, Raise e))
        | (G2, (st, OutOfFuel)) => (G2, (Some st, OutOfFuel))
        end
    | (G1, Raise e) => (G1, (None, Raise e))
    | (G1, OutOfFuel) => (G1, (None, OutOfFuel))
    end.

Definition find_alternatives (q : query) : Py result :=
  fun G => let r := find_alternatives_run q G in (r.1, r.2.2).

(** The locals of the traversal when the query on [G] ended. *)
Definition traversal (q : query) (G : DiGraph) : option bfs_state :=
  (find_alternatives_run q G).2.1.

(** ** Hop distance *)

(** The neighbours of a node, edges taken in both directions. *)
Definition adjacent (G : DiGraph) (n : string) : list string :=
  succ_list G n ++ pred_list G n.

(** [walk G n a b]: [b] is reached from [a] in exactly [n] hops. *)
Inductive walk (G : DiGraph) : nat -> string -> string -> Prop :=
  | walk_here a : walk G 0 a a
  | walk_hop n a b c : walk G n a b -> c ∈ adjacent G b -> walk G (S n) a c.

(** [within k G a b]: the hop distance from [a] to [b] is at most [k]. *)
Fixpoint within (k : nat) (G : DiGraph) (a b : string) : bool :=
  bool_decide (a = b) ||
  match k with
  | O => false
  | S k' => existsb (fun n => within k' G n b) (adjacent G a)
  end.

(** ** What the traversal maintains *)

(** [visited.add(nbr)] and [queue.append(it)] on the locals. *)
Definition mark (nbr : string) (st : bfs_state) : bfs_state :=
  BfsState (queue st) (visited st ++ [nbr]) (candidates st) (enqueued st).

Definition push (it : qitem) (st : bfs_state) : bfs_state :=
  BfsState (queue st ++ [it]) (visited st) (candidates st) (enqueued st ++ [it]).

(** The invariant of the loops, for a traversal that started at [r]. *)
Record bfs_inv (G : DiGraph) (r : string) (st : bfs_state) : Prop := BfsInv {
  inv_visited : NoDup (visited st);
  inv_enqueued : NoDup (q_node <$> enqueued st);
  inv_items : ∀ it, it ∈ enqueued st →
    q_node it ∈ visited st ∧ (q_dist it ≤ 4)%nat ∧ walk G (q_dist it) r (q_node it);
  inv_queue : ∀ it, it ∈ queue st → it ∈ enqueued st;
  inv_reach : ∀ v, v ∈ visited st → ∃ n, (n ≤ 5)%nat ∧ walk G n r v;
  inv_candidates : candidates st = []
}.

(** The end points of the edges, and the measure that bounds the number of
    [popleft] calls still to come. *)
Definition endpoints (G : DiGraph) : list string :=
  (e_src <$> g_edges G) ++ (e_dst <$> g_edges G).

Definition unvisited (G : DiGraph) (st : bfs_state) : list string :=
  filter (fun x => x ∉ visited st) (endpoints G).

Definition measure (G : DiGraph) (st : bfs_state) : nat :=
  length (queue st) + length (unvisited G st).

(** ** Predicates used in the statements *)

(** A computation, or a loop, that leaves the graph as it is. *)
Definition readonly {A} (m : Py A) : Prop := ∀ G, graph_after m G = G.

Definition loop_readonly (l : Loop) : Prop := ∀ st G, (l st G).1 = G.

(** The dict returned for an unknown requested id. *)
Definition not_found : result :=
  Result (Some "Requested product not found in KG.") None None.

(** [adds st out k]: the rule that ended in [out] from accumulator [st]
    added the contribution [k], or raised as the contribution does. *)
Definition adds (st : acc) (out : res acc) (k : res contribution) : Prop :=
  match k, out with
  | Ok k, Ok st' => (st'.1 == st.1 + k.1)%Q ∧ st'.2 = st.2 ++ option_list k.2
  | Raise e, Raise e' => e = e'
  | OutOfFuel, OutOfFuel => True
  | _, _ => False
  end.

(** A computation that does not end for lack of fuel. *)
Definition total {A} (m : Py A) : Prop := ∀ G, eval m G ≠ OutOfFuel.

(** ** Sample graphs, built the way [load_kg] builds them *)

Definition product (name : string) (price : option Q) (brand : option string)
    (stock : bool) (tags : list string) (category : string) : attrs :=
  Attrs (Some "product") (Some name) price brand (Some stock) (Some tags) (Some category).

Definition category (name : string) : attrs :=
  Attrs (Some "category") (Some name) None None None None None.

(** The requested product is out of stock; [P2] shares its category. *)
Definition shop : DiGraph :=
  kg [("P1", product "Pen" (Some 100%Q) (Some "X") false ["fast"] "C1");
      ("P2", product "Pencil" (Some 80%Q) (Some "Y") true ["fast"] "C1");
      ("C1", category "Writing")]
     [("P1", "C1", Some "IS_A"); ("P2", "C1", Some "IS_A")].

(** As [shop], with [P2] out of stock too. *)
Definition shop_sold_out : DiGraph :=
  kg [("P1", product "Pen" (Some 100%Q) (Some "X") false ["fast"] "C1");
      ("P2", product "Pencil" (Some 80%Q) (Some "Y") false ["fast"] "C1");
      ("C1", category "Writing")]
     [("P1", "C1", Some "IS_A"); ("P2", "C1", Some "IS_A")].

(** Three substitutes of one category and brand, of distinct prices. *)
Definition shelf : DiGraph :=
  kg [("P0", product "Pen" (Some 100%Q) (Some "X") false [] "C1");
      ("P1", product "Pen A" (Some 90%Q) (Some "X") true [] "C1");
      ("P2", product "Pen B" (Some 70%Q) (Some "X") true [] "C1");
      ("P3", product "Pen C" (Some 80%Q) (Some "X") true [] "C1");
      ("C1", category "Writing")]
     [("P0", "C1", Some "IS_A"); ("P1", "C1", Some "IS_A");
      ("P2", "C1", Some "IS_A"); ("P3", "C1", Some "IS_A")].

(** Two categories joined by a [SIMILAR_TO] edge, a product in each. *)
Definition related : DiGraph :=
  kg [("L1", product "Laptop" (Some 100%Q) (Some "X") true [] "Laptops");
      ("N1", product "Notebook" (Some 150%Q) (Some "Y") true [] "Notebooks");
      ("Laptops", category "Laptops");
      ("Notebooks", category "Notebooks")]
     [("L1", "Laptops", Some "IS_A"); ("N1", "Notebooks", Some "IS_A");
      ("Laptops", "Notebooks", Some "SIMILAR_TO")].

(** Two products of one category, the candidate the more expensive one. *)
Definition pricey : DiGraph :=
  kg [("P1", product "Pen" (Some 100%Q) (Some "X") true [] "C1");
      ("P2", product "Quill" (Some 150%Q) (Some "Y") true [] "C1");
      ("C1", category "Writing")]
     [("P1", "C1", Some "IS_A"); ("P2", "C1", Some "IS_A")].

(** Two products of one category, the candidate priced beyond the range of
    a float. *)
Definition beyond : DiGraph :=
  kg [("P1", product "Pen" (Some 1%Q) (Some "X") true [] "C1");
      ("P2", product "Quill" (Some (10 ^ 310)%Q) (Some "Y") true [] "C1");
      ("C1", category "Writing")]
     [("P1", "C1", Some "IS_A"); ("P2", "C1", Some "IS_A")].

(** A product in stock with no [price] key. *)
Definition unpriced : DiGraph :=
  kg [("P1", Attrs (Some "product") (Some "Pen") None (Some "X") (Some true) (Some []) None)] [].

(** Two products with no [brand] key. *)
Definition unbranded : DiGraph :=
  kg [("P1", Attrs (Some "product") (Some "Pen") (Some 10%Q) None (Some false) None None);
      ("P2", Attrs (Some "product") (Some "Ink") (Some 10%Q) None (Some true) None None)]
     [("P1", "P2", None)].

(** An out-of-stock product at the end of a chain of five categories. *)
Definition chain : DiGraph :=
  kg [("P0", product "Pen" (Some 100%Q) (Some "X") false [] "c1");
      ("c1", category "one"); ("c2", category "two"); ("c3", category "three");
      ("c4", category "four"); ("c5", category "five")]
     [("P0", "c1", Some "IS_A"); ("c1", "c2", Some "PART_OF"); ("c2", "c3", Some "PART_OF");
      ("c3", "c4", Some "PART_OF"); ("c4", "c5", Some "PART_OF")].

Definition simple_query (requested : string) : query :=
  Query requested None None None 3.

(** ** What [load_kg] makes of the entries *)

(** The type label [load_kg] gives the edge from [u] to [v]: that of the
    last entry for the pair, ["RELATED"] when the entry has none. *)
Definition entry_type (edges : list (string * string * option string)) (u v : string)
    : option string :=
  last ((fun e => default "RELATED" e.2) <$>
        filter (fun e : string * string * option string => e.1 = (u, v)) edges).

(** The ids that occur as source or target of an entry. *)
Definition entry_ends (edges : list (string * string * option string)) : list string :=
  edges ≫= (fun e => [e.1.1; e.1.2]).

(** ** Labelled edges and reason codes *)

(** [G] has an edge from [a] to [b] that carries a type label. *)
Definition typed_edge (G : DiGraph) (a b : string) : bool :=
  match find_edge G a b with
  | Some d => bool_decide (is_Some (ed_type d))
  | None => false
  end.

(** The two categories are non-empty, differ, and a labelled edge joins them
    in one direction or the other. *)
Definition joined (G : DiGraph) (cat_a cat_b : option string) : bool :=
  truthy cat_a && truthy cat_b && negb (bool_decide (cat_a = cat_b)) &&
  (typed_edge G (default "" cat_a) (default "" cat_b) ||
   typed_edge G (default "" cat_b) (default "" cat_a)).

(** The reason codes of a candidate that passed the hard filters. *)
Definition filtered_reasons : list string :=
  ["same_category"; "brand_match"; "same_brand"; "all_required_tags_matched";
   "cheaper_or_equal_price"; "more_expensive"].

(** ** The paths of queue entries *)

(** Consecutive entries of [l] are joined by an edge, in either direction. *)
Fixpoint linked (G : DiGraph) (l : list string) : Prop :=
  match l with
  | a :: ((b :: _) as l') => b ∈ adjacent G a ∧ linked G l'
  | _ => True
  end.

(** [q_path] leads from [r] to [q_node] in [q_dist] hops. *)
Definition path_ok (G : DiGraph) (r : string) (it : qitem) : Prop :=
  head (q_path it) = Some r ∧ last (q_path it) = Some (q_node it) ∧
  length (q_path it) = S (q_dist it) ∧ linked G (q_path it).

(** [P] holds of every entry that has been appended to the queue. *)
Definition all_entries (P : qitem → Prop) (st : bfs_state) : Prop :=
  Forall P (enqueued st) ∧ Forall P (queue st).

(** ** The order of the ranking *)

(** The price of the product of a candidate, as [get_price] finds it. *)
Definition price_of (G : DiGraph) (c : candidate) : option Q :=
  g_node G !! c_product c ≫= a_price.

(** [c1] may stand before [c2] in the ranking: its score is higher, or the
    scores are equal and its price is not higher. *)
Definition ranked_before (G : DiGraph) (c1 c2 : candidate) : Prop :=
  match price_of G c1, price_of G c2 with
  | Some p1, Some p2 =>
      (c_score c2 < c_score c1)%Q ∨ (c_score c1 == c_score c2 ∧ p1 <= p2)%Q
  | _, _ => False
  end.

(** The order of the sort keys when both carry a price. *)
Definition key_leq (k1 k2 : sort_key) : Prop :=
  match k1.2, k2.2 with
  | Some p1, Some p2 => (k1.1 < k2.1)%Q ∨ (k1.1 == k2.1 ∧ p1 <= p2)%Q
  | _, _ => False
  end.

Definition by_key (x y : sort_key * candidate) : Prop := key_leq x.1 y.1.

(** ** The order of the traversal *)

(** A product node other than the requested one. *)
Definition other_product (G : DiGraph) (r v : string) : Prop :=
  v ≠ r ∧ ∃ a, g_node G !! v = Some a ∧ a_type a = Some "product".

(** What a run of the inner loop at depth [dist] does to the locals: it
    appends to [visited], and appends the same entries, all of depth
    [dist + 1], to [queue] and [enqueued]; while [dist + 1 <= 4] every new
    node gets an entry. *)
Definition step_of (dist : nat) (st st' : bfs_state) : Prop :=
  ∃ newv newq,
    visited st' = visited st ++ newv ∧
    enqueued st' = enqueued st ++ newq ∧
    queue st' = queue st ++ newq ∧
    (∀ it, it ∈ newq → q_dist it = dist + 1) ∧
    (dist + 1 ≤ 4 → ∀ v, v ∈ newv → ∃ it, it ∈ newq ∧ q_node it = v).

Definition by_depth (a b : qitem) : Prop := q_dist a ≤ q_dist b.

(** The invariant of [while queue] between two [popleft] calls, [done_]
    being the entries taken from the queue so far. *)
Record bfs_order (G : DiGraph) (r : string) (done_ : list qitem) (st : bfs_state)
    : Prop := BfsOrder {
  ord_split : enqueued st = done_ ++ queue st;
  ord_sorted : StronglySorted by_depth (enqueued st);
  ord_front : ∀ f it, head (queue st) = Some f → it ∈ enqueued st →
                      q_dist it ≤ q_dist f + 1;
  ord_closed : ∀ u v, u ∈ done_ → v ∈ adjacent G (q_node u) →
      v ∈ visited st ∧
      (q_dist u + 1 ≤ 4 → ∃ it, it ∈ enqueued st ∧ q_node it = v ∧ q_dist it ≤ q_dist u + 1);
  ord_seen : ∀ v, v ∈ visited st →
      (∃ it, it ∈ enqueued st ∧ q_node it = v) ∨ (∃ p, p ∈ done_ ∧ 4 ≤ q_dist p);
  ord_root : ∃ it, it ∈ enqueued st ∧ q_node it = r ∧ q_dist it = 0;
  ord_root_seen : r ∈ visited st;
  ord_quiet : ∀ v, v ∈ visited st → ¬ other_product G r v
}.

(** The node of a queue entry is a node of the graph. *)
Definition present (G : DiGraph) (it : qitem) : Prop := is_Some (g_node G !! q_node it).

(** ** Explanations *)

(** A value, or the [IndexError] of [r.split(":", 1)[1]] on a reason with
    no colon.  ([IndexError] does not occur in the search functions.) *)
Inductive indexed (A : Type) :=
  | Indexed (a : A)
  | IndexError.
Arguments Indexed {A} a.
Arguments IndexError {A}.

(** [r.split(":", 1)[1]]: what follows the first colon. *)
Fixpoint after_colon (r : string) : option string :=
  match r with
  | EmptyString => None
  | String c r' => if Ascii.eqb c (Ascii.ascii_of_nat 58) then Some r' else after_colon r'
  end.

(** Lines 195-200: the sentences of the loop over the reasons. *)
Fixpoint tag_sentences (reasons : list string) : indexed (list string) :=
  match reasons with
  | [] => Indexed []
  | r :: rest =>
      let matched :=
        if String.prefix "all_required_tags_matched" r
        then ["Matches all required tags."] else [] in
      let missing :=
        if String.prefix "missing_tags" r
        then match after_colon r with
             | Some m => Indexed ["Missing required tags: " +:+ m +:+ "."]
             | None => IndexError
             end
        else Indexed [] in
      match missing, tag_sentences rest with
      | Indexed s, Indexed l => Indexed (matched ++ s ++ l)
      | _, _ => IndexError
      end
  end.

(** Lines 186-193: the sentence on category and brand. *)
Definition category_sentence (title : string) (reasons : list string) : list string :=
  if bool_decide ("same_category" ∈ reasons) && bool_decide ("same_brand" ∈ reasons)
  then [title +:+ " is from the same category and same brand as requested."]
  else if bool_decide ("same_category" ∈ reasons) && bool_decide ("brand_match" ∈ reasons)
  then [title +:+ " is in the same category and matches the preferred brand."]
  else if bool_decide ("same_category" ∈ reasons)
  then [title +:+ " is in the same category as the requested product."]
  else if existsb (String.prefix "related_category") reasons
  then [title +:+ " is from a related category (closely related product)."]
  else [].

(** Lines 202-210: the hints on price and brand. *)
Definition hint_sentences (reasons : list string) : list string :=
  (if bool_decide ("cheaper_or_equal_price" ∈ reasons)
   then ["Cheaper or equal in price compared to requested product."] else []) ++
  (if bool_decide ("more_expensive" ∈ reasons)
   then ["Slightly more expensive than requested product."] else []) ++
  (if bool_decide ("brand_match" ∈ reasons)
   then ["Matches the preferred brand you requested."] else []) ++
  (if bool_decide ("different_brand" ∈ reasons)
   then ["Different brand (but meets other constraints)."] else []).

Section explanation.
(** [str(x)] of a number is not modelled: it is a parameter. *)
Variable show_number : Q → string.

Definition show_price (p : option Q) : string :=
  match p with Some x => show_number x | None => "None" end.

Definition show_bool (b : bool) : string := if b then "True" else "False".

(** Line 212 *)
Definition summary_sentence (candidate : string) : Py string :=
  p <- get_price candidate ;;
  s <- in_stock candidate ;;
  b <- get_brand candidate ;;
  ret ("Price: ₹" +:+ show_price p +:+ "; In stock: " +:+ show_bool s +:+
       "; Brand: " +:+ default "None" b).

(** The list [expl] at the end of [human_explanation]. *)
Definition explanation_sentences (requested : string) (candidate_entry : candidate)
    : Py (indexed (list string)) :=
  let candidate := c_product candidate_entry in
  let reasons := c_reasons candidate_entry in
  node <- node_attrs candidate ;;
  let title := default candidate (a_name node) in
  let expl := category_sentence title reasons in
  match tag_sentences reasons with
  | IndexError => ret IndexError
  | Indexed tags =>
      last_line <- summary_sentence candidate ;;
      ret (Indexed (expl ++ tags ++ hint_sentences reasons ++ [last_line]))
  end.

Definition human_explanation (requested : string) (candidate_entry : candidate)
    : Py (indexed string) :=
  r <- explanation_sentences requested candidate_entry ;;
  ret (match r with
       | Indexed expl => Indexed (String.concat " " expl)
       | IndexError => IndexError
       end).
End explanation.

(** A reason on which the loop of lines 195-200 fails. *)
Definition no_colon (r : string) : Prop :=
  String.prefix "missing_tags" r = true ∧ after_colon r = None.

(** * Properties *)

(** ** Read-only computations *)

Lemma readonly_run {A} (m : Py A) G : readonly m → m G = (G, eval m G).
Proof.
  intros H. specialize (H G). unfold graph_after, eval in *.
  destruct (m G); simpl in *; congruence.
Qed.

Lemma readonly_ret {A} (a : A) : readonly (ret a).
Proof. by intros G. Qed.

Lemma readonly_raise {A} e : readonly (@raise A e).
Proof. by intros G. Qed.

Lemma readonly_lift {A} (r : res A) : readonly (lift r).
Proof. by intros G. Qed.

Lemma readonly_reads {A} (f : DiGraph → res A) : readonly (reads f).
Proof. by intros G. Qed.

Lemma readonly_bind {A B} (m : Py A) (k : A → Py B) :
  readonly m → (∀ a, readonly (k a)) → readonly (bind m k).
Proof.
  intros Hm Hk G. unfold graph_after, bind. rewrite (readonly_run m G Hm).
  destruct (eval m G); simpl; try done. apply Hk.
Qed.

Lemma readonly_try_except {A} (m h : Py A) :
  readonly m → readonly h → readonly (try_except m h).
Proof.
  intros Hm Hh G. unfold graph_after, try_except. rewrite (readonly_run m G Hm).
  destruct (eval m G); simpl; try done. apply Hh.
Qed.

Lemma eval_bind {A B} (m : Py A) (k : A → Py B) G :
  readonly m →
  eval (bind m k) G =
  match eval m G with
  | Ok a => eval (k a) G
  | Raise e => Raise e
  | OutOfFuel => OutOfFuel
  end.
Proof.
  intros Hm. unfold eval at 1, bind. rewrite (readonly_run m G Hm).
  by destruct (eval m G).
Qed.

(** A write is visible in the state: loading a node changes the graph. *)
Lemma load_kg_writes : ¬ readonly (load_kg [("P1", no_attrs)] []).
Proof. intros H. specialize (H empty_graph). by vm_compute in H. Qed.

Ltac readonly_step :=
  first
    [ apply readonly_ret | apply readonly_raise | apply readonly_lift
    | apply readonly_reads
    | apply readonly_bind; [ | intros ? ]
    | apply readonly_try_except
    | match goal with
      | |- readonly (if ?b then _ else _) => destruct b
      | |- readonly (match ?x with _ => _ end) => destruct x
      | |- readonly (let _ := _ in _) => cbv zeta
      end ].

Ltac readonly := repeat readonly_step.

Lemma readonly_has_node n : readonly (has_node n).
Proof. unfold has_node. readonly. Qed.

Lemma readonly_node_attrs n : readonly (node_attrs n).
Proof. unfold node_attrs. readonly. Qed.

Lemma readonly_successors n : readonly (successors n).
Proof. unfold successors. readonly. Qed.

Lemma readonly_predecessors n : readonly (predecessors n).
Proof. unfold predecessors. readonly. Qed.

Lemma readonly_has_edge u v : readonly (has_edge u v).
Proof. unfold has_edge. readonly. Qed.

Lemma readonly_get_edge_data u v : readonly (get_edge_data u v).
Proof. unfold get_edge_data. readonly. Qed.

Lemma readonly_is_product n : readonly (is_product n).
Proof. unfold is_product. pose proof readonly_node_attrs. readonly; auto. Qed.

Lemma readonly_get_price n : readonly (get_price n).
Proof. unfold get_price. pose proof readonly_node_attrs. readonly; auto. Qed.

Lemma readonly_in_stock n : readonly (in_stock n).
Proof. unfold in_stock. pose proof readonly_node_attrs. readonly; auto. Qed.

Lemma readonly_get_brand n : readonly (get_brand n).
Proof. unfold get_brand. pose proof readonly_node_attrs. readonly; auto. Qed.

Lemma readonly_get_tags n : readonly (get_tags n).
Proof. unfold get_tags. pose proof readonly_node_attrs. readonly; auto. Qed.

Lemma readonly_get_category n : readonly (get_category n).
Proof. unfold get_category. pose proof readonly_node_attrs. readonly; auto. Qed.

Lemma readonly_in_stock_without_graph n : readonly (in_stock_without_graph n).
Proof. unfold in_stock_without_graph. readonly. Qed.

Create HintDb readonly.
#[export] Hint Resolve readonly_ret readonly_raise readonly_lift readonly_reads
  readonly_has_node readonly_node_attrs readonly_successors
  readonly_predecessors readonly_has_edge readonly_get_edge_data readonly_is_product
  readonly_get_price readonly_in_stock readonly_get_brand readonly_get_tags
  readonly_get_category readonly_in_stock_without_graph : readonly.

Ltac readonly_auto := readonly; auto with readonly.

Lemma readonly_similar_edge a b : readonly (similar_edge a b).
Proof. unfold similar_edge. readonly_auto. Qed.
#[export] Hint Resolve readonly_similar_edge : readonly.

Lemma readonly_categories_are_similar a b : readonly (categories_are_similar a b).
Proof. unfold categories_are_similar. readonly_auto. Qed.
#[export] Hint Resolve readonly_categories_are_similar : readonly.

Lemma readonly_category_rule r c st : readonly (category_rule r c st).
Proof. unfold category_rule. readonly_auto. Qed.

Lemma readonly_brand_rule r c ob st : readonly (brand_rule r c ob st).
Proof. unfold brand_rule. readonly_auto. Qed.

Lemma readonly_tags_rule c tags st : readonly (tags_rule c tags st).
Proof. unfold tags_rule. readonly_auto. Qed.

Lemma readonly_price_rule r c st : readonly (price_rule r c st).
Proof. unfold price_rule. readonly_auto. Qed.
#[export] Hint Resolve readonly_category_rule readonly_brand_rule readonly_tags_rule
  readonly_price_rule : readonly.

Lemma readonly_score_candidate r c tags ob : readonly (score_candidate r c tags ob).
Proof. unfold score_candidate. readonly_auto. Qed.
#[export] Hint Resolve readonly_score_candidate : readonly.

Lemma readonly_constraints_ok n mp tags ob : readonly (constraints_ok n mp tags ob).
Proof. unfold constraints_ok. readonly_auto. Qed.
#[export] Hint Resolve readonly_constraints_ok : readonly.

Lemma readonly_consider q tags nbr path cands : readonly (consider q tags nbr path cands).
Proof. unfold consider. readonly_auto. Qed.
#[export] Hint Resolve readonly_consider : readonly.

Lemma readonly_neighbors_of n : readonly (neighbors_of n).
Proof. unfold neighbors_of. readonly_auto. Qed.
#[export] Hint Resolve readonly_neighbors_of : readonly.

Lemma readonly_decorate cands : readonly (decorate cands).
Proof. induction cands; simpl; readonly_auto. Qed.
#[export] Hint Resolve readonly_decorate : readonly.

Lemma readonly_sorted_candidates cands : readonly (sorted_candidates cands).
Proof. unfold sorted_candidates. readonly_auto. Qed.
#[export] Hint Resolve readonly_sorted_candidates : readonly.

Lemma readonly_rank q cands : readonly (rank q cands).
Proof. unfold rank. readonly_auto. Qed.

Lemma readonly_early_return q tags : readonly (early_return q tags).
Proof. unfold early_return. readonly_auto. Qed.
#[export] Hint Resolve readonly_rank readonly_early_return : readonly.

Lemma readonly_visit q tags dist path nbr : loop_readonly (visit q tags dist path nbr).
Proof.
  intros st G. unfold visit. case_bool_decide; [done|].
  rewrite (readonly_run (consider _ _ _ _ _) G) by auto with readonly.
  destruct (eval _ G); simpl; try done. by destruct (_ <=? _)%nat.
Qed.

Lemma readonly_for_neighbors q tags dist path nbrs :
  loop_readonly (for_neighbors q tags dist path nbrs).
Proof.
  induction nbrs as [|nbr rest IH]; intros st G; simpl; [done|].
  pose proof (readonly_visit q tags dist path nbr st G) as Hv.
  destruct (visit q tags dist path nbr st G) as [G' [st' [[]| |]]]; simpl in *; subst; auto.
Qed.

Lemma readonly_bfs_while fuel q tags : loop_readonly (bfs_while fuel q tags).
Proof.
  induction fuel as [|fuel IH]; intros st G; simpl.
  - by destruct (queue st).
  - destruct (queue st) as [|item rest]; [done|].
    rewrite (readonly_run (neighbors_of _) G) by auto with readonly.
    destruct (eval _ G) as [nbrs| |]; simpl; try done.
    pose proof (readonly_for_neighbors q tags (q_dist item) (q_path item) nbrs
                  (BfsState rest (visited st) (candidates st) (enqueued st)) G) as Hf.
    destruct (for_neighbors _ _ _ _ _ _ _) as [G' [st' [[]| |]]]; simpl in *; subst; auto.
Qed.

Lemma readonly_find_alternatives q : readonly (find_alternatives q).
Proof.
  intros G. unfold graph_after, find_alternatives, find_alternatives_run. cbv zeta.
  rewrite (readonly_run (early_return _ _) G) by auto with readonly.
  destruct (eval _ G) as [[r|]| |]; try done.
  match goal with |- context [bfs_while ?f ?q ?t ?s ?G] =>
    pose proof (readonly_bfs_while f q t s G) as Hb;
    destruct (bfs_while f q t s G) as [G' [st' [[]| |]]] end;
    cbn [fst snd] in *; subst; try done.
  rewrite (readonly_run (rank _ _) G) by auto with readonly. done.
Qed.

(** ** Evaluating the accessors *)

Lemma eval_ret {A} (a : A) G : eval (ret a) G = Ok a.
Proof. done. Qed.

Lemma eval_raise {A} e G : eval (@raise A e) G = Raise e.
Proof. done. Qed.

Lemma eval_lift {A} (r : res A) G : eval (lift r) G = r.
Proof. done. Qed.

Lemma eval_has_node n G :
  eval (has_node n) G = Ok (bool_decide (is_Some (g_node G !! n))).
Proof. done. Qed.

Lemma eval_node_attrs n G :
  eval (node_attrs n) G =
  match g_node G !! n with Some a => Ok a | None => Raise KeyError end.
Proof. done. Qed.

Lemma eval_field {A} (f : attrs → A) n G :
  eval (a <- node_attrs n ;; ret (f a)) G =
  match g_node G !! n with Some a => Ok (f a) | None => Raise KeyError end.
Proof.
  rewrite eval_bind by auto with readonly. rewrite eval_node_attrs.
  by destruct (g_node G !! n).
Qed.

Lemma eval_is_product n G :
  eval (is_product n) G =
  match g_node G !! n with
  | Some a => Ok (bool_decide (a_type a = Some "product"))
  | None => Raise KeyError
  end.
Proof. apply (eval_field (fun a => bool_decide (a_type a = Some "product"))). Qed.

Lemma eval_get_price n G :
  eval (get_price n) G =
  match g_node G !! n with Some a => Ok (a_price a) | None => Raise KeyError end.
Proof. apply (eval_field a_price). Qed.

Lemma eval_in_stock n G :
  eval (in_stock n) G =
  match g_node G !! n with
  | Some a => Ok (default false (a_in_stock a))
  | None => Raise KeyError
  end.
Proof. apply (eval_field (fun a => default false (a_in_stock a))). Qed.

Lemma eval_get_brand n G :
  eval (get_brand n) G =
  match g_node G !! n with Some a => Ok (a_brand a) | None => Raise KeyError end.
Proof. apply (eval_field a_brand). Qed.

Lemma eval_get_tags n G :
  eval (get_tags n) G =
  match g_node G !! n with
  | Some a => Ok (list_to_set (default [] (a_tags a)))
  | None => Raise KeyError
  end.
Proof. apply (eval_field (fun a => list_to_set (default [] (a_tags a)) : gset string)). Qed.

Lemma eval_get_category n G :
  eval (get_category n) G =
  match g_node G !! n with Some a => Ok (a_category a) | None => Raise KeyError end.
Proof. apply (eval_field a_category). Qed.

Lemma eval_in_stock_without_graph n G :
  eval (in_stock_without_graph n) G = Raise TypeError.
Proof. done. Qed.

(** One step of symbolic evaluation of [eval m G]. *)
Ltac eval_step :=
  first
    [ rewrite eval_ret | rewrite eval_raise | rewrite eval_lift
    | rewrite eval_has_node | rewrite eval_is_product | rewrite eval_get_price
    | rewrite eval_in_stock | rewrite eval_get_brand | rewrite eval_get_tags
    | rewrite eval_get_category | rewrite eval_in_stock_without_graph
    | rewrite eval_bind by readonly_auto
    | match goal with
      | H : g_node ?G !! ?n = _ |- context [g_node ?G !! ?n] => rewrite H
      end
    | progress cbn beta iota ].

Ltac eval_steps := repeat eval_step.

(** ** The request before the traversal *)

Lemma early_return_absent q tags G :
  g_node G !! requested_product_id q = None →
  eval (early_return q tags) G = Ok (Some not_found).
Proof.
  intros H. unfold early_return. cbv zeta. eval_steps.
  rewrite bool_decide_eq_false_2; [done | by intros []].
Qed.

Lemma early_return_present q tags G r :
  is_Some (g_node G !! requested_product_id q) →
  eval (early_return q tags) G = Ok (Some r) →
  r = Result None (Some (requested_product_id q)) None.
Proof.
  intros [a Ha] H. unfold early_return in H. cbv zeta in H.
  rewrite eval_bind, eval_has_node in H by auto with readonly.
  rewrite bool_decide_eq_true_2 in H by eauto.
  cbn [negb] in H. rewrite eval_bind, eval_is_product, Ha in H by auto with readonly.
  destruct (bool_decide (a_type a = Some "product")).
  - rewrite eval_bind, eval_in_stock, Ha in H by auto with readonly.
    destruct (default false (a_in_stock a)); cbn [andb] in H.
    + rewrite eval_bind in H by auto with readonly.
      destruct (eval (constraints_ok _ _ _ _) G) as [[]| |]; cbn in H; congruence.
    + discriminate.
  - rewrite eval_bind, eval_ret in H by auto with readonly. discriminate.
Qed.

Lemma rank_result q cands G r :
  eval (rank q cands) G = Ok r → r_error r = None ∧ r_exact_match r = None.
Proof.
  unfold rank. rewrite eval_bind by auto with readonly.
  destruct (eval (sorted_candidates cands) G); [|done..].
  cbv zeta. rewrite eval_ret. by intros [= <-].
Qed.

(** The outcome of [find_alternatives] in terms of its three phases. *)
Lemma find_alternatives_run_eq q G :
  find_alternatives_run q G =
  let tags : gset string := list_to_set (default [] (required_tags q)) in
  match eval (early_return q tags) G with
  | Ok (Some r) => (G, (None, Ok r))
  | Ok None =>
      let b := bfs_while (bfs_fuel G) q tags (initial_state (requested_product_id q)) G in
      match b.2.2 with
      | Ok _ => (G, (Some b.2.1, eval (rank q (candidates b.2.1)) G))
      | Raise e => (G, (Some b.2.1, Raise e))
      | OutOfFuel => (G, (Some b.2.1, OutOfFuel))
      end
  | Raise e => (G, (None, Raise e))
  | OutOfFuel => (G, (None, OutOfFuel))
  end.
Proof.
  unfold find_alternatives_run. cbv zeta.
  rewrite (readonly_run (early_return _ _) G) by auto with readonly.
  destruct (eval _ G) as [[r|]| |]; try done.
  match goal with |- context [bfs_while ?f ?q ?t ?s ?G] =>
    pose proof (readonly_bfs_while f q t s G) as Hb;
    destruct (bfs_while f q t s G) as [G' [st' [[]| |]]] end;
    cbn [fst snd] in *; subst; try done.
  by rewrite (readonly_run (rank _ _) G) by auto with readonly.
Qed.

Lemma eval_find_alternatives q G :
  eval (find_alternatives q) G = (find_alternatives_run q G).2.2.
Proof. done. Qed.

Lemma constraints_ok_true n mp (tags : gset string) ob G a :
  g_node G !! n = Some a →
  match mp with None => True | Some m => ∃ p, a_price a = Some p ∧ (p <= m)%Q end →
  tags ⊆ list_to_set (default [] (a_tags a)) →
  match ob with None => True | Some b => a_brand a = Some b end →
  eval (constraints_ok n mp tags ob) G = Ok true.
Proof.
  intros Ha Hp Ht Hb. unfold constraints_ok.
  assert (eval (match mp with
                | Some m => p <- get_price n;; lift (le_price p m)
                | None => ret true
                end) G = Ok true) as Hprice.
  { destruct mp as [m|]; [|done]. destruct Hp as (p & Hp & Hle). eval_steps.
    rewrite Hp. cbn. f_equal. by apply Qle_bool_iff. }
  rewrite eval_bind by readonly_auto.
  rewrite Hprice. eval_steps.
  assert (eval (match ob with
                | Some b => cb <- get_brand n;; ret (bool_decide (cb = Some b))
                | None => ret true
                end) G = Ok true) as ->.
  { destruct ob as [b|]; [|done]. eval_steps. by rewrite Hb, bool_decide_eq_true_2. }
  eval_steps. by rewrite bool_decide_eq_true_2.
Qed.

(** C2: a requested product that is in stock and meets the constraints is
    returned as the exact match, the dict carries nothing else, and no
    traversal is started. *)
Theorem exact_match_short_circuit q G a :
  g_node G !! requested_product_id q = Some a →
  a_type a = Some "product" →
  a_in_stock a = Some true →
  match max_price q with
  | None => True
  | Some m => ∃ p, a_price a = Some p ∧ (p <= m)%Q
  end →
  (list_to_set (default [] (required_tags q)) : gset string)
    ⊆ list_to_set (default [] (a_tags a)) →
  match optional_brand q with None => True | Some b => a_brand a = Some b end →
  eval (find_alternatives q) G = Ok (Result None (Some (requested_product_id q)) None) ∧
  traversal q G = None.
Proof.
  intros Ha Hty Hst Hp Ht Hb.
  assert (eval (early_return q (list_to_set (default [] (required_tags q)))) G =
          Ok (Some (Result None (Some (requested_product_id q)) None))) as He.
  { unfold early_return. cbv zeta. eval_steps.
    rewrite bool_decide_eq_true_2 by eauto. cbn [negb]. eval_steps.
    rewrite Hty, bool_decide_eq_true_2 by done. eval_steps. rewrite Hst. cbn.
    eval_steps. by rewrite (constraints_ok_true _ _ _ _ _ a). }
  unfold traversal. rewrite eval_find_alternatives, find_alternatives_run_eq.
  cbv zeta. by rewrite He.
Qed.

Lemma exact_match_short_circuit_witness :
  eval (find_alternatives (Query "P1" (Some 120%Q) (Some ["fast"]) (Some "X") 3)) 
       (add_node "P1" (product "Pen" (Some 100%Q) (Some "X") true ["fast"; "red"] "C1")
                 empty_graph)
  = Ok (Result None (Some "P1") None).
Proof.
  refine (proj1 (exact_match_short_circuit
            (Query "P1" (Some 120%Q) (Some ["fast"]) (Some "X") 3) _
            (product "Pen" (Some 100%Q) (Some "X") true ["fast"; "red"] "C1")
            _ _ _ _ _ _)); try reflexivity.
  - exists 100%Q. split; [reflexivity | by vm_compute].
  - apply (bool_decide_unpack _). by vm_compute.
Defined.

(** C3: the error dict is returned exactly when the requested id is not a
    node of the graph; it then carries neither an exact match nor
    alternatives, and no traversal was started. *)
Theorem requested_product_not_found q G :
  (g_node G !! requested_product_id q = None →
     eval (find_alternatives q) G = Ok not_found ∧ traversal q G = None) ∧
  (∀ r, eval (find_alternatives q) G = Ok r → is_Some (r_error r) →
     g_node G !! requested_product_id q = None).
Proof.
  unfold traversal. rewrite eval_find_alternatives, find_alternatives_run_eq. cbv zeta.
  split.
  - intros H. by rewrite early_return_absent.
  - intros r Hr [msg Hmsg].
    destruct (g_node G !! requested_product_id q) as [a|] eqn:Ha; [exfalso|done].
    pose proof (early_return_present q (list_to_set (default [] (required_tags q))) G) as Hp.
    destruct (eval (early_return q _) G) as [[r'|]| |]; cbn [fst snd] in Hr; try done.
    + injection Hr as ->. rewrite (Hp r) in Hmsg by eauto. done.
    + destruct (bfs_while _ _ _ _ _).2.2; cbn [fst snd] in Hr; try done.
      apply rank_result in Hr as [Hr _]. congruence.
Qed.

Lemma requested_product_not_found_witness :
  eval (find_alternatives (simple_query "P9")) pricey = Ok not_found ∧
  traversal (simple_query "P9") pricey = None.
Proof.
  apply (proj1 (requested_product_not_found (simple_query "P9") pricey)).
  reflexivity.
Defined.

(** ** Scoring *)

Lemma eval_try_except {A} (m h : Py A) G :
  readonly m →
  eval (try_except m h) G =
  match eval m G with
  | Raise _ => eval h G
  | r => r
  end.
Proof.
  intros Hm. unfold eval at 1, try_except. rewrite (readonly_run m G Hm).
  by destruct (eval m G).
Qed.

(** Line 153 ends: with a float or with an exception. *)
Lemma as_float_ends n : as_float n ≠ OutOfFuel.
Proof. destruct n; cbn; [by destruct (_ <=? _)%Z | done]. Qed.

Lemma excess_ends rp cp : excess rp cp ≠ OutOfFuel.
Proof.
  unfold excess, py_sub, py_truediv, max_one.
  destruct (number_of cp) as [zc|xc], (number_of rp) as [zr|xr]; cbn [and_then as_float value];
    repeat (first [ destruct (_ <=? _)%Z | destruct (_ =? _)%Z | destruct (Qle_bool _ _)
                  | destruct (Qeq_bool _ _) ]; cbn [and_then as_float]); done.
Qed.

Ltac adds_solve :=
  eval_steps;
  first [ done
        | split; [ first [ reflexivity | by rewrite Qplus_0_r ]
                 | first [ done | by rewrite app_nil_r ] ] ].

Section rules.
Context (G : DiGraph) (requested candidate : string) (ar ac : attrs).
Context (Hr : g_node G !! requested = Some ar) (Hc : g_node G !! candidate = Some ac).

Lemma category_rule_adds st :
  adds st (eval (category_rule requested candidate st) G)
       (eval (category_contribution ar ac) G).
Proof using Hr Hc.
  unfold category_rule, category_contribution. eval_steps. cbv zeta.
  destruct (_ && _ && _); [adds_solve|]. eval_steps.
  destruct (eval (categories_are_similar _ _) G) as [[]| |]; adds_solve.
Qed.

Lemma brand_rule_adds ob st :
  adds st (eval (brand_rule requested candidate ob st) G)
       (Ok (brand_contribution ar ac ob)).
Proof using Hr Hc.
  unfold brand_rule, brand_contribution.
  destruct (truthy ob); eval_steps.
  - destruct (bool_decide (a_brand ac = ob)); adds_solve.
  - destruct (bool_decide (a_brand ac = a_brand ar)); adds_solve.
Qed.

Lemma tags_rule_adds tags st :
  adds st (eval (tags_rule candidate tags st) G) (Ok (tags_contribution ac tags)).
Proof using Hc.
  unfold tags_rule, tags_contribution. eval_steps. cbv zeta.
  destruct (decide (tags = ∅)) as [He|He].
  - rewrite (bool_decide_eq_false_2 (tags ≠ ∅)) by (intros H; by apply H).
    rewrite (bool_decide_eq_true_2 (tags = ∅)) by done. adds_solve.
  - rewrite (bool_decide_eq_true_2 (tags ≠ ∅)) by done.
    rewrite (bool_decide_eq_false_2 (tags = ∅)) by done.
    destruct (bool_decide (_ = tags)); adds_solve.
Qed.

Lemma price_rule_adds st :
  adds st (eval (price_rule requested candidate st) G) (Ok (price_contribution ar ac)).
Proof using Hr Hc.
  unfold price_rule, price_contribution.
  rewrite eval_try_except by readonly_auto. eval_steps.
  destruct (a_price ar) as [rp|], (a_price ac) as [cp|]; try adds_solve.
  destruct (Qle_bool cp rp); [adds_solve|].
  pose proof (excess_ends rp cp) as Hx. eval_steps.
  destruct (excess rp cp) as [x| |]; eval_steps; [|adds_solve|done].
  split; [cbn; ring | done].
Qed.
End rules.

Lemma adds_ok st out k :
  adds st out (Ok k) → ∃ st', out = Ok st' ∧ (st'.1 == st.1 + k.1)%Q ∧ st'.2 = st.2 ++ option_list k.2.
Proof. destruct out as [st'| |]; cbn; [eauto | done..]. Qed.

Lemma adds_raise st out e : adds st out (Raise e) → out = Raise e.
Proof. destruct out; cbn; [done | congruence | done]. Qed.

Lemma adds_out_of_fuel st out : adds st out OutOfFuel → out = OutOfFuel.
Proof. by destruct out. Qed.

Lemma readonly_category_contribution ar ac : readonly (category_contribution ar ac).
Proof. unfold category_contribution. readonly_auto. Qed.
#[export] Hint Resolve readonly_category_contribution : readonly.

(** The accumulating code of [score_candidate] computes the sum of the four
    contributions, in their order. *)
Lemma score_candidate_sum requested candidate ar ac tags ob G :
  g_node G !! requested = Some ar →
  g_node G !! candidate = Some ac →
  acc_eq (eval (score_candidate requested candidate tags ob) G)
         (eval (sum_of_rules ar ac tags ob) G).
Proof.
  intros Hr Hc. unfold score_candidate, sum_of_rules. cbv zeta.
  rewrite !(eval_bind (category_rule _ _ _)), !(eval_bind (category_contribution _ _))
    by readonly_auto.
  pose proof (category_rule_adds G _ _ _ _ Hr Hc (0.0%Q, [])) as H1.
  destruct (eval (category_contribution _ _) G) as [k1| |];
    [ apply adds_ok in H1 as (st1 & -> & Hs1 & Hl1)
    | apply adds_raise in H1 as ->; done
    | apply adds_out_of_fuel in H1 as ->; done ].
  rewrite !(eval_bind (brand_rule _ _ _ _)) by readonly_auto.
  pose proof (brand_rule_adds G _ _ _ _ Hr Hc ob st1) as H2.
  apply adds_ok in H2 as (st2 & -> & Hs2 & Hl2).
  rewrite !(eval_bind (tags_rule _ _ _)) by readonly_auto.
  pose proof (tags_rule_adds G _ _ Hc tags st2) as H3.
  apply adds_ok in H3 as (st3 & -> & Hs3 & Hl3).
  rewrite !(eval_bind (price_rule _ _ _)) by readonly_auto.
  pose proof (price_rule_adds G _ _ _ _ Hr Hc st3) as H4.
  apply adds_ok in H4 as (st4 & -> & Hs4 & Hl4).
  rewrite !eval_ret. destruct st4 as [s4 l4]. cbn in *. split.
  - by rewrite Hs4, Hs3, Hs2, Hs1.
  - rewrite Hl4, Hl3, Hl2, Hl1. by rewrite <- !app_assoc.
Qed.

(** A node that is missing makes the first attribute lookup raise. *)
Lemma score_candidate_missing_node requested candidate tags ob G :
  g_node G !! requested = None ∨ g_node G !! candidate = None →
  eval (score_candidate requested candidate tags ob) G = Raise KeyError.
Proof.
  intros H. unfold score_candidate, category_rule. cbv zeta.
  destruct (g_node G !! requested) eqn:Hr; destruct H as [H|H]; try done;
    eval_steps; done.
Qed.

Lemma py_max_is_max a b :
  (a <= py_max a b)%Q ∧ (b <= py_max a b)%Q ∧ (py_max a b = a ∨ py_max a b = b).
Proof.
  unfold py_max. destruct (Qle_bool b a) eqn:H.
  - apply Qle_bool_iff in H. split; [apply Qle_refl | auto].
  - split; [|split; [apply Qle_refl | auto]].
    destruct (Qlt_le_dec a b) as [Hlt|Hle]; [by apply Qlt_le_weak|].
    apply Qle_bool_iff in Hle. congruence.
Qed.

(** The numbers of line 153 have the values of exact arithmetic. *)
Lemma value_number_of p : (value (number_of p) == p)%Q.
Proof.
  unfold number_of.
  destruct (Z.eqb_spec (Qnum p mod Z.pos (Qden p)) 0) as [H|H]; cbn [value]; [|reflexivity].
  unfold Qeq, inject_Z. cbn [Qnum Qden].
  apply Z.div_exact in H; [|done]. rewrite Z.mul_1_r, Z.mul_comm. by symmetry.
Qed.

Lemma as_float_value n x : as_float n = Ok x → x = value n.
Proof. destruct n; cbn; [destruct (_ <=? _)%Z|]; congruence. Qed.

Lemma py_sub_value a b d : py_sub a b = Ok d → (value d == value a - value b)%Q.
Proof.
  unfold py_sub. destruct a as [x|x], b as [y|y]; cbn [and_then as_float value];
    try destruct (_ <=? _)%Z; cbn [and_then]; intros [= <-]; cbn [value]; try reflexivity.
  unfold Qeq, inject_Z. cbn. rewrite ?Pos.mul_1_l. ring.
Qed.

Lemma py_truediv_value a b x : py_truediv a b = Ok x → (x == value a / value b)%Q.
Proof.
  unfold py_truediv. destruct a as [u|u], b as [v|v]; cbn [and_then as_float value];
    repeat (first [ destruct (_ <=? _)%Z | destruct (_ =? _)%Z | destruct (Qle_bool _ _)
                  | destruct (Qeq_bool _ _) ]; cbn [and_then]);
    intros [= <-]; reflexivity.
Qed.

Lemma py_max_proper a b b' : (b == b')%Q → (py_max a b == py_max a b')%Q.
Proof.
  intros Hb. unfold py_max.
  destruct (Qle_bool b a) eqn:H1, (Qle_bool b' a) eqn:H2; try done.
  - apply Qle_bool_iff in H1. rewrite Hb in H1. apply Qle_bool_iff in H1. congruence.
  - apply Qle_bool_iff in H2. rewrite <- Hb in H2. apply Qle_bool_iff in H2. congruence.
Qed.

(** When line 153 does not raise, its quotient is
    [(cp - rp) / max(1.0, rp)]. *)
Lemma excess_value rp cp x :
  excess rp cp = Ok x → (x == (cp - rp) / py_max 1.0 rp)%Q.
Proof.
  unfold excess. destruct (py_sub _ _) as [d| |] eqn:Hd; cbn [and_then]; [|done..].
  intros Hx%py_truediv_value. apply py_sub_value in Hd.
  assert (value (max_one (number_of rp)) == py_max 1.0 rp)%Q as Hm.
  { unfold max_one. fold (py_max 1.0 (value (number_of rp))).
    assert (value (if Qle_bool (value (number_of rp)) 1.0 then PyFloat 1.0
                   else number_of rp) = py_max 1.0 (value (number_of rp))) as ->.
    { unfold py_max. by destruct (Qle_bool _ _). }
    apply py_max_proper, value_number_of. }
  rewrite Hx, Hd, Hm, !value_number_of. reflexivity.
Qed.

(** C4: on a graph where the categories of the requested product and of
    the candidate differ and are joined by a [SIMILAR_TO] edge,
    [score_candidate] raises [AttributeError] in the category rule,
    whichever of the two products is the requested one: no score is
    returned, and the brand, tag and price rules are not evaluated. *)
Theorem score_candidate_stops_at_category :
  eval (category_rule "L1" "N1" (0.0%Q, [])) related = Raise AttributeError ∧
  eval (score_candidate "L1" "N1" ∅ None) related = Raise AttributeError ∧
  eval (score_candidate "N1" "L1" ∅ None) related = Raise AttributeError.
Proof. split; [by vm_compute|]. split; by vm_compute. Qed.

(** The price rule on a candidate priced beyond the range of a float: the
    [OverflowError] of line 153 is swallowed, and the rule adds nothing. *)
Example price_rule_swallows_overflow :
  number_of (10 ^ 310)%Q = PyInt (10 ^ 310) ∧
  excess 1 (10 ^ 310) = Raise OverflowError ∧
  acc_eq (eval (score_candidate "P1" "P2" ∅ None) beyond) (Ok (3.0%Q, ["same_category"])).
Proof. split; [by vm_compute|]. split; by vm_compute. Qed.

(** C10: with no preferred brand, two products that both lack a brand get
    the [same_brand] bonus: the brand rule adds [0.5] and the reason. *)
Theorem absent_brands_count_as_same G requested candidate ar ac :
  g_node G !! requested = Some ar →
  g_node G !! candidate = Some ac →
  a_brand ar = None →
  a_brand ac = None →
  (∀ st, eval (brand_rule requested candidate None st) G =
         Ok ((st.1 + 0.5)%Q, st.2 ++ ["same_brand"])) ∧
  (∀ tags s reasons, eval (score_candidate requested candidate tags None) G = Ok (s, reasons) →
     "same_brand" ∈ reasons).
Proof.
  intros Hr Hc Hbr Hbc. split.
  - intros st. unfold brand_rule. cbn [truthy]. eval_steps.
    by rewrite Hbr, Hbc, bool_decide_eq_true_2.
  - intros tags s reasons H.
    pose proof (score_candidate_sum requested candidate ar ac tags None G Hr Hc) as Hs.
    rewrite H in Hs. unfold sum_of_rules in Hs.
    rewrite eval_bind in Hs by readonly_auto.
    destruct (eval (category_contribution ar ac) G) as [c1| |]; [|done..].
    cbv zeta in Hs. rewrite eval_ret in Hs. destruct Hs as [_ ->].
    unfold brand_contribution. cbn [truthy]. rewrite Hbr, Hbc, bool_decide_eq_true_2 by done.
    cbn [snd]. apply elem_of_app. right. apply elem_of_app. left.
    by apply list_elem_of_singleton.
Qed.

Lemma absent_brands_count_as_same_witness :
  eval (brand_rule "P1" "P2" None (0.0%Q, [])) unbranded =
  Ok ((0.0 + 0.5)%Q, ["same_brand"]).
Proof.
  apply (proj1 (absent_brands_count_as_same unbranded "P1" "P2"
           (Attrs (Some "product") (Some "Pen") (Some 10%Q) None (Some false) None None)
           (Attrs (Some "product") (Some "Ink") (Some 10%Q) None (Some true) None None)
           eq_refl eq_refl eq_refl eq_refl) (0.0%Q, [])).
Defined.

(** C9: a query leaves the graph as it found it: the node dict and the edge
    list after [find_alternatives] are those before it, and so for
    [score_candidate] and [categories_are_similar] on their own. *)
Theorem find_alternatives_leaves_graph q G :
  graph_after (find_alternatives q) G = G ∧
  (∀ requested candidate tags ob,
     graph_after (score_candidate requested candidate tags ob) G = G) ∧
  (∀ cat_a cat_b, graph_after (categories_are_similar cat_a cat_b) G = G).
Proof.
  split; [apply readonly_find_alternatives|]. split.
  - intros. apply readonly_score_candidate.
  - intros. apply readonly_categories_are_similar.
Qed.

(** ** Hop distance *)

Lemma walk_front G n a b c : b ∈ adjacent G a → walk G n b c → walk G (S n) a c.
Proof.
  intros Hab Hw. induction Hw as [b|n b c d Hw IH Hd].
  - eapply walk_hop; [apply walk_here | done].
  - eapply walk_hop; [by apply IH | done].
Qed.

Lemma walk_front_inv G n a c :
  walk G (S n) a c → ∃ b, b ∈ adjacent G a ∧ walk G n b c.
Proof.
  revert c. induction n as [|n IH]; intros c Hw.
  - inversion Hw as [|n' a' b c' Hw' Hc]; subst. inversion Hw'; subst.
    exists c. split; [done | apply walk_here].
  - inversion Hw as [|n' a' b c' Hw' Hc]; subst.
    destruct (IH _ Hw') as (b' & Hb' & Hw'').
    exists b'. split; [done|]. by eapply walk_hop.
Qed.

Lemma existsb_elem_of {A} (f : A → bool) (l : list A) :
  existsb f l = true ↔ ∃ x, x ∈ l ∧ f x = true.
Proof.
  rewrite existsb_exists. split; intros (x & Hx & Hf); exists x; split; try done;
    by apply list_elem_of_In.
Qed.

(** [within] decides the hop distance. *)
Lemma within_walk G k a b :
  within k G a b = true ↔ ∃ n, (n ≤ k)%nat ∧ walk G n a b.
Proof.
  revert a. induction k as [|k IH]; intros a; simpl.
  - rewrite orb_false_r. split.
    + intros ->%bool_decide_eq_true. exists 0. split; [done | apply walk_here].
    + intros (n & Hn & Hw). assert (n = 0) as -> by lia. inversion Hw; subst.
      by apply bool_decide_eq_true.
  - rewrite orb_true_iff, existsb_elem_of. split.
    + intros [->%bool_decide_eq_true | (x & Hx & Hw)].
      * exists 0. split; [lia | apply walk_here].
      * apply IH in Hw as (n & Hn & Hw). exists (S n). split; [lia|].
        by eapply walk_front.
    + intros (n & Hn & Hw). destruct n as [|n].
      * inversion Hw; subst. left. by apply bool_decide_eq_true.
      * right. apply walk_front_inv in Hw as (x & Hx & Hw).
        exists x. split; [done|]. apply IH. exists n. split; [lia | done].
Qed.

(** ** The traversal *)

(** A newly visited neighbour leaves [candidates] as it is, or raises. *)
Lemma consider_outcome q tags nbr path cands G :
  eval (consider q tags nbr path cands) G = Ok cands ∨
  ∃ e, eval (consider q tags nbr path cands) G = Raise e.
Proof.
  unfold consider. eval_steps.
  destruct (g_node G !! nbr) as [a|]; eval_steps; [|eauto].
  destruct (_ && _); eval_steps; eauto.
Qed.

(** A product other than the requested one makes line 79 raise. *)
Lemma consider_product q tags nbr path cands G a :
  g_node G !! nbr = Some a →
  a_type a = Some "product" →
  nbr ≠ requested_product_id q →
  eval (consider q tags nbr path cands) G = Raise TypeError.
Proof.
  intros Ha Hty Hne. unfold consider. eval_steps.
  rewrite Hty, !bool_decide_eq_true_2 by done. by eval_steps.
Qed.

Lemma visit_cases q tags dist path nbr st G :
  let out := (visit q tags dist path nbr st G).2 in
  (nbr ∈ visited st ∧ out = (st, Ok tt)) ∨
  ((nbr ∉ visited st) ∧
   ((∃ e, out = (mark nbr st, Raise e)) ∨
    out = (if (dist + 1 <=? 4)%nat
           then push (QItem nbr (dist + 1) (path ++ [nbr])) (mark nbr st)
           else mark nbr st, Ok tt))).
Proof.
  unfold visit. case_bool_decide as Hv; [by left|]. right. split; [done|].
  cbn [queue visited candidates enqueued].
  rewrite (readonly_run (consider _ _ _ _ _) G) by auto with readonly.
  destruct (consider_outcome q tags nbr (path ++ [nbr]) (candidates st) G)
    as [-> | [e ->]]; cbn [fst snd].
  - right. destruct st. by destruct (_ <=? _)%nat.
  - left. eauto.
Qed.

Lemma adjacent_endpoints G n x : x ∈ adjacent G n → x ∈ endpoints G.
Proof.
  unfold adjacent, succ_list, pred_list, endpoints.
  rewrite !elem_of_app, !list_elem_of_fmap.
  intros [(e & -> & He) | (e & -> & He)]; apply list_elem_of_filter in He as [_ He];
    [right | left]; eauto.
Qed.

Lemma unvisited_le (l vis : list string) x :
  length (filter (fun y => y ∉ vis ++ [x]) l) ≤ length (filter (fun y => y ∉ vis) l).
Proof.
  induction l as [|y l IH]; [done|]. rewrite !filter_cons.
  repeat case_decide; simpl; try lia.
  exfalso. rewrite elem_of_app in *. tauto.
Qed.

Lemma unvisited_lt (l vis : list string) x :
  x ∈ l → x ∉ vis →
  length (filter (fun y => y ∉ vis ++ [x]) l) < length (filter (fun y => y ∉ vis) l).
Proof.
  intros Hx Hv. induction l as [|y l IH]; [by apply elem_of_nil in Hx|].
  rewrite !filter_cons. pose proof (unvisited_le l vis x).
  apply elem_of_cons in Hx as [<- | Hx].
  - rewrite decide_False by (rewrite elem_of_app, list_elem_of_singleton; tauto).
    rewrite decide_True by done. simpl. lia.
  - specialize (IH Hx). repeat case_decide; simpl; try lia.
    exfalso. rewrite elem_of_app in *. tauto.
Qed.

Lemma measure_mark G nbr st :
  nbr ∈ endpoints G → nbr ∉ visited st → S (measure G (mark nbr st)) ≤ measure G st.
Proof.
  intros He Hv. unfold measure, unvisited, mark. cbn [queue visited].
  pose proof (unvisited_lt (endpoints G) (visited st) nbr He Hv). lia.
Qed.

Lemma measure_push G it st : measure G (push it st) = S (measure G st).
Proof. unfold measure, unvisited, push. cbn [queue visited]. rewrite length_app. simpl. lia. Qed.

Lemma inv_mark G r nbr st :
  bfs_inv G r st → nbr ∉ visited st → (∃ n, (n ≤ 5)%nat ∧ walk G n r nbr) →
  bfs_inv G r (mark nbr st).
Proof.
  intros [Hv He Hi Hq Hr Hc] Hn Hw. split; cbn [mark queue visited candidates enqueued]; try done.
  - apply NoDup_app. split; [done|]. split; [|apply NoDup_singleton].
    by intros x Hx ->%list_elem_of_singleton.
  - intros it Hit. destruct (Hi it Hit) as (? & ? & ?).
    split; [apply elem_of_app; by left | done].
  - intros v [Hv'|Hv']%elem_of_app; [by apply Hr|].
    apply list_elem_of_singleton in Hv' as ->. done.
Qed.

Lemma inv_push G r it st :
  bfs_inv G r st → q_node it ∈ visited st → q_node it ∉ q_node <$> enqueued st →
  (q_dist it ≤ 4)%nat → walk G (q_dist it) r (q_node it) →
  bfs_inv G r (push it st).
Proof.
  intros [Hv He Hi Hq Hr Hc] Hin Hnew Hd Hw.
  split; cbn [push queue visited candidates enqueued]; try done.
  - rewrite fmap_app. apply NoDup_app. split; [done|]. split; [|apply NoDup_singleton].
    intros x Hx Hx'. cbn in Hx'. apply list_elem_of_singleton in Hx' as ->. done.
  - intros it' [Hit|Hit]%elem_of_app; [by apply Hi|].
    apply list_elem_of_singleton in Hit as ->. done.
  - intros it' [Hit|Hit]%elem_of_app; apply elem_of_app; [left; by apply Hq | by right].
Qed.

Section traversal.
Context (G : DiGraph) (q : query) (tags : gset string).
Let r := requested_product_id q.

Lemma visit_inv dist path node nbr st :
  bfs_inv G r st → (dist ≤ 4)%nat → walk G dist r node → nbr ∈ adjacent G node →
  let out := (visit q tags dist path nbr st G).2 in
  bfs_inv G r out.1 ∧ measure G out.1 ≤ measure G st ∧ out.2 ≠ OutOfFuel.
Proof.
  intros Hinv Hd Hw Hadj.
  destruct (visit_cases q tags dist path nbr st G) as [[_ ->] | [Hv Hout]]; [done|].
  assert (bfs_inv G r (mark nbr st)) as Hm.
  { apply inv_mark; [done..|]. exists (S dist). split; [lia | by eapply walk_hop]. }
  pose proof (measure_mark G nbr st (adjacent_endpoints _ _ _ Hadj) Hv) as Hmm.
  destruct Hout as [[e ->] | ->]; cbn [fst snd].
  { split; [done|]. split; [lia | done]. }
  destruct (dist + 1 <=? 4)%nat eqn:Hle; [|split; [done | split; [lia | done]]].
  apply Nat.leb_le in Hle. rewrite measure_push. split; [|split; [lia | done]].
  apply inv_push; cbn [q_node q_dist mark visited enqueued]; [done | | | lia |].
  - apply elem_of_app. right. by apply list_elem_of_singleton.
  - intros (it & Hit & Hin)%list_elem_of_fmap.
    destruct (inv_items _ _ _ Hinv it Hin) as [Hvis _]. congruence.
  - rewrite Nat.add_1_r. by eapply walk_hop.
Qed.

Lemma for_neighbors_inv dist path node nbrs st :
  bfs_inv G r st → (dist ≤ 4)%nat → walk G dist r node →
  (∀ x, x ∈ nbrs → x ∈ adjacent G node) →
  let out := (for_neighbors q tags dist path nbrs st G).2 in
  bfs_inv G r out.1 ∧ measure G out.1 ≤ measure G st ∧ out.2 ≠ OutOfFuel.
Proof.
  intros Hinv Hd Hw. revert st Hinv.
  induction nbrs as [|nbr rest IH]; intros st Hinv Hsub; [done|].
  cbn [for_neighbors].
  pose proof (visit_inv dist path node nbr st Hinv Hd Hw) as Hv.
  pose proof (readonly_visit q tags dist path nbr st G) as Hro.
  destruct (visit q tags dist path nbr st G) as [G' [st' [[]| |]]];
    cbn [fst snd] in *; subst G'; try (apply Hv, Hsub, elem_of_cons; by left).
  destruct Hv as (Hinv' & Hm & _); [apply Hsub, elem_of_cons; by left|].
  destruct (IH st' Hinv') as (? & ? & ?);
    [intros x Hx; apply Hsub, elem_of_cons; by right|].
  split; [done|]. split; [lia | done].
Qed.

Lemma eval_neighbors_of node :
  eval (neighbors_of node) G =
  match g_node G !! node with
  | Some _ => Ok (adjacent G node)
  | None => Raise NetworkXError
  end.
Proof.
  unfold neighbors_of. rewrite eval_bind by auto with readonly.
  unfold successors at 1, eval at 1, reads. cbn [snd].
  destruct (g_node G !! node) as [a|] eqn:Ha; [|done].
  rewrite eval_bind by auto with readonly.
  unfold predecessors at 1, eval at 1, reads. cbn [snd]. by rewrite Ha.
Qed.

(** With fuel for every pending and every possible future queue entry,
    the loop keeps the invariant and does not run out of fuel. *)
Lemma bfs_while_inv fuel st :
  bfs_inv G r st → measure G st ≤ fuel →
  let out := (bfs_while fuel q tags st G).2 in
  bfs_inv G r out.1 ∧ out.2 ≠ OutOfFuel.
Proof.
  revert st. induction fuel as [|fuel IH]; intros st Hinv Hm; cbn [bfs_while].
  - destruct (queue st) eqn:Hq; [done|]. unfold measure in Hm. rewrite Hq in Hm.
    simpl in Hm. lia.
  - destruct (queue st) as [|item rest] eqn:Hq; [done|].
    set (st0 := BfsState rest (visited st) (candidates st) (enqueued st)).
    assert (item ∈ enqueued st) as Hitem.
    { apply (inv_queue _ _ _ Hinv). rewrite Hq. apply elem_of_cons. by left. }
    destruct (inv_items _ _ _ Hinv item Hitem) as (_ & Hd & Hw).
    assert (bfs_inv G r st0) as Hinv0.
    { destruct Hinv as [Hv He Hi Hqu Hr Hc]. split; try done.
      intros it Hit. apply Hqu. rewrite Hq. apply elem_of_cons. by right. }
    assert (measure G st0 ≤ fuel) as Hm0.
    { unfold measure, unvisited in *. rewrite Hq in Hm. simpl in *. lia. }
    rewrite (readonly_run (neighbors_of _) G) by auto with readonly.
    rewrite eval_neighbors_of. destruct (g_node G !! q_node item); [|done].
    pose proof (for_neighbors_inv (q_dist item) (q_path item) (q_node item)
                  (adjacent G (q_node item)) st0 Hinv0 Hd Hw (fun _ H => H)) as Hf.
    pose proof (readonly_for_neighbors q tags (q_dist item) (q_path item)
                  (adjacent G (q_node item)) st0 G) as Hro.
    destruct (for_neighbors _ _ _ _ _ _ _) as [G' [st' [[]| |]]];
      cbn [fst snd] in *; subst G'; try (split; apply Hf).
    destruct Hf as (Hinv' & Hm' & _). apply IH; [done | lia].
Qed.

Lemma initial_state_inv : bfs_inv G r (initial_state r).
Proof.
  split; cbn [initial_state queue visited candidates enqueued]; try done.
  - apply NoDup_singleton.
  - apply NoDup_singleton.
  - intros it ->%list_elem_of_singleton. cbn.
    split; [by apply list_elem_of_singleton|]. split; [lia | apply walk_here].
  - intros v ->%list_elem_of_singleton. exists 0. split; [lia | apply walk_here].
Qed.

Lemma initial_state_measure : measure G (initial_state r) ≤ bfs_fuel G.
Proof.
  unfold measure, unvisited, bfs_fuel, initial_state. cbn [queue visited length].
  pose proof (length_filter (fun x => x ∉ [r]) (endpoints G)) as H.
  unfold endpoints in *. rewrite length_app, !length_fmap in H. lia.
Qed.

Lemma bfs_from_initial :
  let out := (bfs_while (bfs_fuel G) q tags (initial_state r) G).2 in
  bfs_inv G r out.1 ∧ out.2 ≠ OutOfFuel.
Proof. apply bfs_while_inv; [apply initial_state_inv | apply initial_state_measure]. Qed.
End traversal.

(** ** Termination *)

Lemma total_ret {A} (a : A) : total (ret a).
Proof. by intros G. Qed.

Lemma total_raise {A} e : total (@raise A e).
Proof. by intros G. Qed.

Lemma total_bind {A B} (m : Py A) (k : A → Py B) :
  total m → (∀ a, total (k a)) → total (bind m k).
Proof.
  intros Hm Hk G. unfold eval, bind. specialize (Hm G). unfold eval in Hm.
  destruct (m G) as [G' [a| |]]; cbn [snd] in *; try done. apply Hk.
Qed.

Lemma total_node_attrs n : total (node_attrs n).
Proof. intros G. rewrite eval_node_attrs. by destruct (g_node G !! n). Qed.

Lemma total_has_node n : total (has_node n).
Proof. by intros G. Qed.

Lemma total_le_price p m : total (lift (le_price p m)).
Proof. intros G. by destruct p. Qed.

Create HintDb total.
#[export] Hint Resolve total_ret total_raise total_node_attrs total_has_node
  total_le_price : total.

Ltac total_step :=
  first
    [ apply total_bind; [ | intros ? ]
    | match goal with
      | |- total (if ?b then _ else _) => destruct b
      | |- total (match ?x with _ => _ end) => destruct x
      | |- total (let _ := _ in _) => cbv zeta
      end
    | solve [ auto with total ] ].

Ltac total := repeat total_step.

Lemma total_constraints_ok n mp tags ob : total (constraints_ok n mp tags ob).
Proof.
  unfold constraints_ok, get_price, get_tags, get_brand. total.
Qed.
#[export] Hint Resolve total_constraints_ok : total.

Lemma total_early_return q tags : total (early_return q tags).
Proof. unfold early_return, is_product, in_stock. total. Qed.

Lemma rank_nil q G : eval (rank q []) G = Ok (Result None None (Some [])).
Proof.
  unfold rank, sorted_candidates. cbn [decorate]. eval_steps.
  cbn [sort_by_key]. eval_steps. cbv zeta. cbn [fmap list_fmap].
  unfold slice_to. rewrite !take_nil. by destruct (0 <=? max_results q)%Z.
Qed.

(** The three ways a query can end once the traversal has started. *)
Lemma find_alternatives_after_early_return q G :
  eval (early_return q (list_to_set (default [] (required_tags q)))) G = Ok None →
  ∃ st, traversal q G = Some st ∧ bfs_inv G (requested_product_id q) st ∧
        (eval (find_alternatives q) G = Ok (Result None None (Some [])) ∨
         ∃ e, eval (find_alternatives q) G = Raise e).
Proof.
  intros He. unfold traversal. rewrite eval_find_alternatives, find_alternatives_run_eq.
  cbv zeta. rewrite He.
  pose proof (bfs_from_initial G q (list_to_set (default [] (required_tags q))))
    as [Hinv Hfuel]. cbv zeta in Hinv, Hfuel.
  destruct (bfs_while _ _ _ _ _).2 as [st [[]| |]]; cbn [fst snd] in *; try done.
  - exists st. split; [done|]. split; [done|]. left.
    by rewrite (inv_candidates _ _ _ Hinv), rank_nil.
  - exists st. eauto.
Qed.

(** [find_alternatives] returns or raises: the fuel of the embedding is
    never exhausted. *)
Lemma find_alternatives_terminates q G : eval (find_alternatives q) G ≠ OutOfFuel.
Proof.
  pose proof (total_early_return q (list_to_set (default [] (required_tags q))) G) as Ht.
  pose proof (find_alternatives_after_early_return q G) as Hb.
  rewrite eval_find_alternatives, find_alternatives_run_eq in *. cbv zeta in *.
  destruct (eval (early_return q _) G) as [[r|]| |]; try done.
  destruct Hb as (st & _ & _ & [H | [e H]]); [done | by rewrite H..].
Qed.

(** The list under [alternatives] is empty whenever there is one: every
    product the traversal reaches ends the query at line 79. *)
Lemma alternatives_always_empty q G r l :
  eval (find_alternatives q) G = Ok r → r_alternatives r = Some l → l = [].
Proof.
  intros Hr Hl.
  rewrite eval_find_alternatives, find_alternatives_run_eq in Hr. cbv zeta in Hr.
  destruct (eval (early_return q (list_to_set (default [] (required_tags q)))) G)
    as [[r'|]| |] eqn:He; cbn [snd] in Hr; try done.
  - injection Hr as <-.
    destruct (g_node G !! requested_product_id q) as [a|] eqn:Ha.
    + apply early_return_present in He; [|by rewrite Ha]. by subst r'.
    + rewrite early_return_absent in He by done. by injection He as <-.
  - destruct (find_alternatives_after_early_return q G He) as (st & _ & _ & [H | [e H]]);
      rewrite eval_find_alternatives, find_alternatives_run_eq in H; cbv zeta in H;
      rewrite He in H; rewrite H in Hr; [|done].
    injection Hr as <-. cbn in Hl. congruence.
Qed.

Lemma traversal_inv q G st :
  traversal q G = Some st → bfs_inv G (requested_product_id q) st.
Proof.
  intros Ht.
  destruct (eval (early_return q (list_to_set (default [] (required_tags q)))) G)
    as [[r'|]| |] eqn:He.
  2:{ destruct (find_alternatives_after_early_return q G He) as (st' & Hst & Hinv & _).
      congruence. }
  all: unfold traversal in Ht; rewrite find_alternatives_run_eq in Ht; cbv zeta in Ht;
    by rewrite He in Ht.
Qed.

(** C6, as the code has it: no node is added to [visited] twice and no node
    is enqueued twice; every enqueued node has depth at most 4 and lies
    within that many hops of the requested node; every visited node lies
    within 5 hops of it. *)
Theorem traversal_bounds q G st :
  traversal q G = Some st →
  NoDup (visited st) ∧
  NoDup (q_node <$> enqueued st) ∧
  (∀ it, it ∈ enqueued st →
     q_dist it ≤ 4 ∧ within (q_dist it) G (requested_product_id q) (q_node it) = true) ∧
  (∀ v, v ∈ visited st → within 5 G (requested_product_id q) v = true).
Proof.
  intros [Hv He Hi Hq Hr Hc]%traversal_inv. split; [done|]. split; [done|]. split.
  - intros it Hit. destruct (Hi it Hit) as (_ & Hd & Hw). split; [done|].
    apply within_walk. eauto.
  - intros v Hin. apply within_walk. by apply Hr.
Qed.

Lemma traversal_bounds_witness :
  NoDup ["P0"; "c1"; "c2"; "c3"; "c4"; "c5"] ∧
  NoDup ["P0"; "c1"; "c2"; "c3"; "c4"] ∧
  within 5 chain "P0" "c5" = true.
Proof.
  destruct (traversal_bounds (simple_query "P0") chain
    (BfsState [] ["P0"; "c1"; "c2"; "c3"; "c4"; "c5"] []
       [QItem "P0" 0 ["P0"]; QItem "c1" 1 ["P0"; "c1"]; QItem "c2" 2 ["P0"; "c1"; "c2"];
        QItem "c3" 3 ["P0"; "c1"; "c2"; "c3"];
        QItem "c4" 4 ["P0"; "c1"; "c2"; "c3"; "c4"]]))
    as (Hv & He & _ & Hr); [by vm_compute|].
  split; [exact Hv|]. split; [exact He|]. apply Hr. cbn [visited].
  do 5 (apply elem_of_cons; right). apply elem_of_cons. by left.
Defined.

(** C6, as the claim has it, fails: at the end of a chain of five hops the
    node [c5] is in [visited], and no walk of four hops or fewer reaches it. *)
Lemma visited_at_five_hops :
  ∃ st, traversal (simple_query "P0") chain = Some st ∧
        "c5" ∈ visited st ∧
        ¬ ∃ n, n ≤ 4 ∧ walk chain n "P0" "c5".
Proof.
  eexists. split; [by vm_compute|]. split.
  - cbn [visited]. do 5 (apply elem_of_cons; right). apply elem_of_cons. by left.
  - intros H%within_walk. by vm_compute in H.
Qed.

(** ** The in-stock test of the traversal *)

(** C1: on a graph where the category of the out-of-stock requested product
    holds a second product, in stock or not, the query ends in [TypeError]
    at the in-stock test of line 79 and returns no list. *)
Theorem in_stock_test_raises :
  eval (find_alternatives (simple_query "P1")) shop = Raise TypeError ∧
  eval (find_alternatives (simple_query "P1")) shop_sold_out = Raise TypeError.
Proof. split; by vm_compute. Qed.

(** C5: with [max_results = 1] and three in-stock substitutes of equal score
    and distinct prices, the query ends in [TypeError] and returns no
    candidate. *)
Theorem top_candidate_raises :
  eval (find_alternatives (Query "P0" None None None 1)) shelf = Raise TypeError.
Proof. by vm_compute. Qed.

(** ** Similarity over an edge *)

Lemma eval_similar_edge G a b :
  eval (similar_edge a b) G =
  match find_edge G a b with
  | Some d => match ed_type d with Some _ => Raise AttributeError | None => Ok false end
  | None => Ok false
  end.
Proof.
  unfold similar_edge.
  rewrite eval_bind by auto with readonly.
  unfold has_edge at 1, eval at 1, reads. cbn [snd].
  destruct (find_edge G a b) as [d|] eqn:Hd.
  - rewrite bool_decide_eq_true_2 by eauto.
    rewrite eval_bind by auto with readonly.
    unfold get_edge_data at 1, eval at 1, reads. cbn [snd]. rewrite Hd.
    rewrite eval_bind by auto with readonly. rewrite eval_lift. cbn [dict_values].
    by destruct (ed_type d).
  - by rewrite bool_decide_eq_false_2 by (by intros []).
Qed.

Lemma similar_edge_outcome G a b :
  eval (similar_edge a b) G = Ok false ∨ eval (similar_edge a b) G = Raise AttributeError.
Proof.
  rewrite eval_similar_edge. destruct (find_edge G a b) as [d|]; [|auto].
  destruct (ed_type d); auto.
Qed.

(** Distinct categories are never found similar: an edge between them
    either carries no type, or makes the scan raise. *)
Lemma categories_are_similar_true G cat_a cat_b :
  eval (categories_are_similar cat_a cat_b) G = Ok true → cat_a = cat_b.
Proof.
  unfold categories_are_similar. destruct (_ || _); [done|].
  case_bool_decide; [done|]. cbv zeta. rewrite eval_bind by auto with readonly.
  destruct (similar_edge_outcome G (default "" cat_a) (default "" cat_b)) as [-> | ->];
    [|done].
  rewrite eval_bind by auto with readonly.
  destruct (similar_edge_outcome G (default "" cat_b) (default "" cat_a)) as [-> | ->];
    done.
Qed.

(** C7: for two categories joined by a [SIMILAR_TO] edge,
    [categories_are_similar] raises [AttributeError], in either order of
    its arguments; it does not return [True]. *)
Theorem similar_to_edge_raises :
  eval (categories_are_similar (Some "Laptops") (Some "Notebooks")) related
    = Raise AttributeError ∧
  eval (categories_are_similar (Some "Notebooks") (Some "Laptops")) related
    = Raise AttributeError.
Proof. split; by vm_compute. Qed.

(** ** A missing price *)

(** C8: a requested product that is in stock and has no price, queried with
    a price ceiling, ends the query in [TypeError] at line 52. *)
Theorem missing_price_raises :
  eval (find_alternatives (Query "P1" (Some 100%Q) None None 3)) unpriced = Raise TypeError.
Proof. by vm_compute. Qed.

(** ** What holds of the other cases *)

Lemma categories_are_similar_absent G cat_a cat_b :
  truthy cat_a = false ∨ truthy cat_b = false →
  eval (categories_are_similar cat_a cat_b) G = Ok false.
Proof.
  intros H. unfold categories_are_similar.
  by destruct H as [-> | ->]; rewrite ?orb_true_r.
Qed.

Lemma categories_are_similar_same G cat :
  truthy cat = true → eval (categories_are_similar cat cat) G = Ok true.
Proof.
  intros H. unfold categories_are_similar. rewrite H. cbn [negb orb].
  by rewrite bool_decide_eq_true_2.
Qed.

(** An edge that carries a type label, in either direction, makes the scan
    of its attribute values raise. *)
Lemma categories_are_similar_edge G a b d t :
  a ≠ "" → b ≠ "" → a ≠ b →
  find_edge G a b = Some d → ed_type d = Some t →
  eval (categories_are_similar (Some a) (Some b)) G = Raise AttributeError.
Proof.
  intros Ha Hb Hab Hd Ht. unfold categories_are_similar. cbn [truthy default].
  rewrite !bool_decide_eq_false_2 by congruence. cbn [negb orb]. cbv zeta. unfold id.
  rewrite eval_bind by auto with readonly. by rewrite eval_similar_edge, Hd, Ht.
Qed.

(** The price ceiling against a missing price raises, for the requested
    node and for a neighbour alike. *)
Lemma constraints_ok_missing_price G n a m tags ob :
  g_node G !! n = Some a → a_price a = None →
  eval (constraints_ok n (Some m) tags ob) G = Raise TypeError.
Proof.
  intros Ha Hp. unfold constraints_ok. eval_steps. by rewrite Hp.
Qed.

(** ** The sample graphs are graphs *)

#[local] Instance wf_graph_dec G : Decision (wf_graph G).
Proof. unfold wf_graph. apply _. Defined.

Lemma sample_graphs_wf :
  Forall wf_graph [shop; shop_sold_out; shelf; related; pricey; unpriced; unbranded; chain].
Proof. repeat constructor; apply (bool_decide_unpack _); by vm_compute. Qed.

(** ** Loading a graph *)

Lemma kg_eq nodes edges :
  kg nodes edges =
  foldl (fun G e => add_edge e.1.1 e.1.2 (default "RELATED" e.2) G)
        (foldl (fun G n => add_node n.1 n.2 G) empty_graph nodes) edges.
Proof. done. Qed.

Lemma attrs_update_no_attrs_r a : attrs_update a no_attrs = a.
Proof. by destruct a. Qed.

Lemma attrs_update_no_attrs_l a : attrs_update no_attrs a = a.
Proof. destruct a as [[] [] [] [] [] [] []]; done. Qed.

Lemma pairs_set_edge u v d es :
  (fun e => (e_src e, e_dst e)) <$> set_edge u v d es =
  if bool_decide ((u, v) ∈ (fun e => (e_src e, e_dst e)) <$> es)
  then (fun e => (e_src e, e_dst e)) <$> es
  else ((fun e => (e_src e, e_dst e)) <$> es) ++ [(u, v)].
Proof.
  induction es as [|e es IH]; [done|]. cbn [set_edge]. unfold same_pair.
  destruct (decide (e_src e = u)) as [Hu|Hu], (decide (e_dst e = v)) as [Hv|Hv].
  - rewrite !bool_decide_eq_true_2 by done. cbn. subst.
    rewrite bool_decide_eq_true_2; [done | left].
  - rewrite (bool_decide_eq_false_2 (e_dst e = v)) by done. rewrite andb_false_r.
    rewrite !fmap_cons, IH. case_bool_decide as H1.
    + rewrite bool_decide_eq_true_2; [done | by right].
    + rewrite bool_decide_eq_false_2; [done|].
      intros [H|H]%elem_of_cons; [congruence | done].
  - rewrite (bool_decide_eq_false_2 (e_src e = u)) by done. cbn [andb].
    rewrite !fmap_cons, IH. case_bool_decide as H1.
    + rewrite bool_decide_eq_true_2; [done | by right].
    + rewrite bool_decide_eq_false_2; [done|].
      intros [H|H]%elem_of_cons; [congruence | done].
  - rewrite (bool_decide_eq_false_2 (e_src e = u)) by done. cbn [andb].
    rewrite !fmap_cons, IH. case_bool_decide as H1.
    + rewrite bool_decide_eq_true_2; [done | by right].
    + rewrite bool_decide_eq_false_2; [done|].
      intros [H|H]%elem_of_cons; [congruence | done].
Qed.

Lemma set_edge_ends u v d es e :
  e ∈ set_edge u v d es → e ∈ es ∨ (e_src e = u ∧ e_dst e = v).
Proof.
  induction es as [|e' es IH]; cbn [set_edge].
  - intros ->%list_elem_of_singleton. by right.
  - destruct (same_pair u v e').
    + intros [-> | H]%elem_of_cons; [by right | left; by right].
    + intros [-> | H]%elem_of_cons; [left; by left|].
      destruct (IH H) as [?|?]; [left; by right | by right].
Qed.

Lemma is_Some_add_node n props G x :
  is_Some (g_node (add_node n props G) !! x) ↔ x = n ∨ is_Some (g_node G !! x).
Proof.
  cbn [add_node g_node]. rewrite lookup_insert_is_Some.
  destruct (decide (n = x)); intuition congruence.
Qed.

Lemma is_Some_add_edge u v ty G x :
  is_Some (g_node (add_edge u v ty G) !! x) ↔ x = u ∨ x = v ∨ is_Some (g_node G !! x).
Proof.
  unfold add_edge. cbv zeta. cbn [g_node]. rewrite !is_Some_add_node. tauto.
Qed.

Lemma wf_add_node n props G : wf_graph G → wf_graph (add_node n props G).
Proof.
  intros [Hnd Hends]. split; [done|]. change (g_edges (add_node n props G)) with (g_edges G).
  eapply Forall_impl; [done|]. intros e [H1 H2]. rewrite !is_Some_add_node. auto.
Qed.

Lemma wf_add_edge u v ty G : wf_graph G → wf_graph (add_edge u v ty G).
Proof.
  intros [Hnd Hends]. split.
  - cbn [add_edge add_node g_edges g_node]. rewrite pairs_set_edge.
    case_bool_decide as H; [done|]. apply NoDup_app. split; [done|].
    split; [|apply NoDup_singleton]. by intros x Hx ->%list_elem_of_singleton.
  - apply Forall_forall. intros e He. rewrite !is_Some_add_edge.
    change (g_edges (add_edge u v ty G))
      with (set_edge u v (EdgeData (Some ty)) (g_edges G)) in He.
    apply set_edge_ends in He as [He | [<- <-]]; [|auto].
    rewrite Forall_forall in Hends. destruct (Hends e He). auto.
Qed.

(** X1: whatever entries the file holds, the graph [load_kg] builds has at
    most one edge per ordered pair of nodes, and both end points of every
    edge are nodes of the graph. *)
Theorem load_kg_well_formed nodes edges : wf_graph (kg nodes edges).
Proof.
  rewrite kg_eq.
  assert (wf_graph (foldl (fun G n => add_node n.1 n.2 G) empty_graph nodes)) as H.
  { assert (wf_graph empty_graph) as H0 by (split; constructor).
    revert H0. generalize empty_graph. induction nodes as [|n nodes IH]; [done|].
    intros G HG. cbn [foldl]. apply IH. by apply wf_add_node. }
  revert H. generalize (foldl (fun G n => add_node n.1 n.2 G) empty_graph nodes).
  induction edges as [|e edges IH]; [done|].
  intros G HG. cbn [foldl]. apply IH. by apply wf_add_edge.
Qed.

Lemma find_edge_set_edge u v t es u' v' :
  e_data <$> head (filter (fun e => same_pair u' v' e = true)
                     (set_edge u v (EdgeData (Some t)) es)) =
  if bool_decide ((u, v) = (u', v')) then Some (EdgeData (Some t))
  else e_data <$> head (filter (fun e => same_pair u' v' e = true) es).
Proof.
  assert (∀ a b e, same_pair a b e = true ↔ (e_src e, e_dst e) = (a, b)) as Hsp.
  { intros a b e. unfold same_pair. rewrite andb_true_iff, !bool_decide_eq_true.
    split; [intros [-> ->]; done | intros [= -> ->]; done]. }
  induction es as [|e es IH]; cbn [set_edge].
  - rewrite filter_cons, filter_nil. case_bool_decide as H.
    + rewrite decide_True by (apply Hsp; by cbn). done.
    + rewrite decide_False by (rewrite Hsp; by cbn). done.
  - destruct (same_pair u v e) eqn:He.
    + apply Hsp in He. rewrite !filter_cons. case_bool_decide as H.
      * rewrite decide_True by (apply Hsp; by cbn). done.
      * rewrite decide_False by (rewrite Hsp; by cbn).
        rewrite decide_False by (rewrite Hsp; congruence). done.
    + rewrite !filter_cons. destruct (decide (same_pair u' v' e = true)) as [H'|H'].
      * cbn. case_bool_decide as H; [|done]. injection H as -> ->. congruence.
      * apply IH.
Qed.

Lemma find_edge_add_edge u v t G u' v' :
  find_edge (add_edge u v t G) u' v' =
  if bool_decide ((u, v) = (u', v')) then Some (EdgeData (Some t)) else find_edge G u' v'.
Proof. apply find_edge_set_edge. Qed.

Lemma find_edge_add_nodes nodes G u v :
  find_edge (foldl (fun G n => add_node n.1 n.2 G) G nodes) u v = find_edge G u v.
Proof. revert G. induction nodes as [|n nodes IH]; intros G; [done|]. cbn [foldl]. by rewrite IH. Qed.

Lemma find_edge_add_edges edges G u v :
  find_edge (foldl (fun G e => add_edge e.1.1 e.1.2 (default "RELATED" e.2) G) G edges) u v =
  match entry_type edges u v with
  | Some t => Some (EdgeData (Some t))
  | None => find_edge G u v
  end.
Proof.
  revert G. induction edges as [|[[a b] ty] edges IH]; intros G; [done|].
  cbn [foldl]. rewrite IH. unfold entry_type. rewrite filter_cons. cbn [fst snd].
  destruct (decide ((a, b) = (u, v))) as [Hab|Hab].
  - rewrite fmap_cons, last_cons. cbn [snd].
    destruct (last _); [done|]. rewrite find_edge_add_edge. by rewrite bool_decide_eq_true_2.
  - destruct (last _); [done|]. rewrite find_edge_add_edge. by rewrite bool_decide_eq_false_2.
Qed.

(** X2: the loaded graph has an edge from [u] to [v] exactly when some edge
    entry has that source and that target; the [type] attribute of the edge
    is that of the last such entry, [RELATED] when that entry gives none. *)
Theorem load_kg_edges nodes edges u v :
  find_edge (kg nodes edges) u v = (fun t => EdgeData (Some t)) <$> entry_type edges u v.
Proof.
  rewrite kg_eq, find_edge_add_edges, find_edge_add_nodes.
  by destruct (entry_type edges u v).
Qed.

Lemma lookup_add_node n props G x :
  g_node (add_node n props G) !! x =
  if bool_decide (x = n) then Some (attrs_update (default no_attrs (g_node G !! n)) props)
  else g_node G !! x.
Proof.
  cbn [add_node g_node]. case_bool_decide as H.
  - subst. by rewrite lookup_insert_eq.
  - by rewrite lookup_insert_ne.
Qed.

Lemma lookup_add_edge u v ty G x :
  g_node (add_edge u v ty G) !! x =
  if bool_decide (x = u ∨ x = v) then Some (default no_attrs (g_node G !! x))
  else g_node G !! x.
Proof.
  unfold add_edge. cbv zeta. cbn [g_node]. rewrite !lookup_add_node.
  repeat case_bool_decide; subst; rewrite ?attrs_update_no_attrs_r; cbn;
    rewrite ?attrs_update_no_attrs_r; try done; try tauto.
Qed.

Lemma lookup_add_nodes_other nodes G x :
  x ∉ nodes.*1 →
  g_node (foldl (fun G n => add_node n.1 n.2 G) G nodes) !! x = g_node G !! x.
Proof.
  revert G. induction nodes as [|[n p] nodes IH]; intros G Hx; [done|].
  cbn [foldl]. rewrite IH.
  - rewrite lookup_add_node, bool_decide_eq_false_2; [done|].
    intros ->. apply Hx. left.
  - intros H. apply Hx. by right.
Qed.

Lemma lookup_add_nodes nodes G x p :
  NoDup nodes.*1 → (x, p) ∈ nodes → g_node G !! x = None →
  g_node (foldl (fun G n => add_node n.1 n.2 G) G nodes) !! x = Some p.
Proof.
  revert G. induction nodes as [|[n p'] nodes IH]; intros G Hnd Hin HG.
  - by apply elem_of_nil in Hin.
  - cbn [foldl]. apply NoDup_cons in Hnd as [Hn Hnd]. cbn [fst snd] in *.
    apply elem_of_cons in Hin as [[= -> ->] | Hin].
    + rewrite lookup_add_nodes_other by done.
      rewrite lookup_add_node, bool_decide_eq_true_2 by done.
      by rewrite HG, attrs_update_no_attrs_l.
    + apply IH; [done..|]. rewrite lookup_add_node, bool_decide_eq_false_2; [done|].
      intros ->. apply Hn. apply list_elem_of_fmap. by exists (n, p).
Qed.

Lemma lookup_add_edges edges G x :
  g_node (foldl (fun G e => add_edge e.1.1 e.1.2 (default "RELATED" e.2) G) G edges) !! x =
  match g_node G !! x with
  | Some a => Some a
  | None => if bool_decide (x ∈ entry_ends edges) then Some no_attrs else None
  end.
Proof.
  revert G. induction edges as [|[[a b] ty] edges IH]; intros G.
  - cbn. by destruct (g_node G !! x).
  - cbn [foldl]. rewrite IH, lookup_add_edge. cbn [fst snd].
    assert (x ∈ entry_ends ((a, b, ty) :: edges) ↔ (x = a ∨ x = b) ∨ x ∈ entry_ends edges)
      as Hiff.
    { unfold entry_ends. rewrite bind_cons. cbn [fst snd].
      rewrite elem_of_app, !elem_of_cons, elem_of_nil. tauto. }
    destruct (decide (x = a ∨ x = b)) as [H1|H1].
    + rewrite (bool_decide_eq_true_2 _ H1). destruct (g_node G !! x); cbn; [done|].
      by rewrite bool_decide_eq_true_2 by tauto.
    + rewrite (bool_decide_eq_false_2 _ H1). destruct (g_node G !! x); [done|].
      destruct (decide (x ∈ entry_ends edges));
        [rewrite !bool_decide_eq_true_2 by tauto
        | rewrite !bool_decide_eq_false_2 by tauto]; done.
Qed.

(** X3: when no id occurs twice among the node entries, [G.nodes[n]] of the
    loaded graph holds exactly the props of the entry of [n]; the edge
    entries that follow do not change them. *)
Theorem load_kg_node_round_trip nodes edges n props :
  NoDup nodes.*1 → (n, props) ∈ nodes → g_node (kg nodes edges) !! n = Some props.
Proof.
  intros Hnd Hin. rewrite kg_eq, lookup_add_edges.
  by rewrite (lookup_add_nodes nodes empty_graph n props).
Qed.

Lemma load_kg_node_round_trip_witness :
  g_node (kg [("P1", product "Pen" (Some 100%Q) None true ["a"] "C1"); ("C1", category "W")]
             [("P1", "C1", None)]) !! "P1"
  = Some (product "Pen" (Some 100%Q) None true ["a"] "C1").
Proof.
  apply load_kg_node_round_trip.
  - apply (bool_decide_unpack _). by vm_compute.
  - apply elem_of_cons. by left.
Defined.

(** X4: an id without a node entry is a node of the loaded graph exactly
    when an edge entry names it as source or target, and then it has no
    attributes at all. *)
Theorem load_kg_implicit_nodes nodes edges n :
  n ∉ nodes.*1 →
  g_node (kg nodes edges) !! n =
  if bool_decide (n ∈ entry_ends edges) then Some no_attrs else None.
Proof.
  intros Hn. rewrite kg_eq, lookup_add_edges, lookup_add_nodes_other by done. done.
Qed.

Lemma load_kg_implicit_nodes_witness :
  g_node (kg [("P1", product "Pen" (Some 100%Q) None true ["a"] "C1")]
             [("P1", "C1", None)]) !! "C1" = Some no_attrs.
Proof.
  refine (load_kg_implicit_nodes
            [("P1", product "Pen" (Some 100%Q) None true ["a"] "C1")]
            [("P1", "C1", None)] "C1" _).
  apply (bool_decide_unpack _). by vm_compute.
Defined.

(** ** Similarity and scoring, on any graph *)

Lemma eval_similar_edge_typed G a b :
  eval (similar_edge a b) G = if typed_edge G a b then Raise AttributeError else Ok false.
Proof.
  rewrite eval_similar_edge. unfold typed_edge.
  destruct (find_edge G a b) as [d|]; [|done]. by destruct (ed_type d).
Qed.

Lemma eval_categories_are_similar G cat_a cat_b :
  eval (categories_are_similar cat_a cat_b) G =
  if negb (truthy cat_a) || negb (truthy cat_b) then Ok false
  else if bool_decide (cat_a = cat_b) then Ok true
  else if joined G cat_a cat_b then Raise AttributeError else Ok false.
Proof.
  unfold categories_are_similar, joined.
  destruct (truthy cat_a), (truthy cat_b); cbn [negb orb andb]; try done.
  case_bool_decide; [done|]. cbv zeta. cbn [negb andb].
  rewrite eval_bind, eval_similar_edge_typed by auto with readonly.
  destruct (typed_edge G (default "" cat_a) (default "" cat_b)); [done|].
  rewrite eval_bind, eval_similar_edge_typed by auto with readonly.
  by destruct (typed_edge G (default "" cat_b) (default "" cat_a)).
Qed.

Lemma joined_sym G cat_a cat_b : joined G cat_a cat_b = joined G cat_b cat_a.
Proof.
  unfold joined. rewrite (andb_comm (truthy cat_a)), (orb_comm (typed_edge _ _ _)).
  by rewrite (bool_decide_ext (cat_a = cat_b) (cat_b = cat_a)) by (split; congruence).
Qed.

(** X5: [categories_are_similar] does not depend on the order of its two
    arguments: either way round it returns the same value or raises the
    same exception. *)
Theorem categories_are_similar_symmetric G cat_a cat_b :
  eval (categories_are_similar cat_a cat_b) G = eval (categories_are_similar cat_b cat_a) G.
Proof.
  rewrite !eval_categories_are_similar, (orb_comm (negb (truthy cat_a))), (joined_sym G cat_a).
  destruct (_ || _); [done|].
  by rewrite (bool_decide_ext (cat_a = cat_b) (cat_b = cat_a)) by (split; congruence).
Qed.

Lemma entry_type_is_Some edges a b :
  is_Some (entry_type edges a b) ↔ ∃ ty, (a, b, ty) ∈ edges.
Proof.
  unfold entry_type. rewrite <- not_eq_None_Some, last_None.
  split.
  - intros H. destruct (filter _ edges) as [|[[a' b'] ty] l] eqn:Hf; [done|].
    assert ((a', b', ty) ∈ filter (fun e : string * string * option string => e.1 = (a, b)) edges)
      as Hin by (rewrite Hf; left).
    apply list_elem_of_filter in Hin as [[= -> ->] Hin]. eauto.
  - intros [ty Hin] Hnil%fmap_nil_inv.
    assert ((a, b, ty) ∈ filter (fun e : string * string * option string => e.1 = (a, b)) edges)
      as Hf by (by apply list_elem_of_filter).
    rewrite Hnil in Hf. by apply elem_of_nil in Hf.
Qed.

Lemma typed_edge_kg nodes edges a b :
  typed_edge (kg nodes edges) a b = bool_decide (is_Some (entry_type edges a b)).
Proof.
  unfold typed_edge. rewrite kg_eq, find_edge_add_edges, find_edge_add_nodes.
  destruct (entry_type edges a b) as [t|] eqn:Ht.
  - by rewrite !bool_decide_eq_true_2 by eauto.
  - done.
Qed.

(** X6: on a loaded graph, for two distinct non-empty categories: when some
    edge entry joins them, in either direction, the call raises
    [AttributeError] (every loaded edge carries a type label, which the loop
    of lines 167-169 takes for a dict); when none does, it returns [False]. *)
Theorem categories_are_similar_loaded nodes edges a b :
  a ≠ "" → b ≠ "" → a ≠ b →
  ((∃ ty, (a, b, ty) ∈ edges ∨ (b, a, ty) ∈ edges) →
     eval (categories_are_similar (Some a) (Some b)) (kg nodes edges) = Raise AttributeError) ∧
  ((∀ ty, ((a, b, ty) ∉ edges) ∧ ((b, a, ty) ∉ edges)) →
     eval (categories_are_similar (Some a) (Some b)) (kg nodes edges) = Ok false).
Proof.
  intros Ha Hb Hab. rewrite eval_categories_are_similar. unfold joined. cbn [truthy default].
  rewrite !(bool_decide_eq_false_2 (_ = "")) by done.
  rewrite (bool_decide_eq_false_2 (Some a = Some b)) by congruence.
  cbn [negb orb andb]. unfold id. rewrite !typed_edge_kg. split.
  - intros [ty [H|H]].
    + rewrite (bool_decide_eq_true_2 (is_Some (entry_type edges a b)))
        by (apply entry_type_is_Some; eauto). done.
    + rewrite (bool_decide_eq_true_2 (is_Some (entry_type edges b a)))
        by (apply entry_type_is_Some; eauto). by rewrite orb_true_r.
  - intros H. rewrite !bool_decide_eq_false_2; [done | |];
      intros [ty Hty]%entry_type_is_Some; by destruct (H ty).
Qed.

Lemma categories_are_similar_loaded_witness :
  eval (categories_are_similar (Some "Notebooks") (Some "Laptops")) related = Raise AttributeError.
Proof.
  refine (proj1 (categories_are_similar_loaded _ _ "Notebooks" "Laptops" _ _ _) _); try done.
  exists (Some "SIMILAR_TO"). right. do 2 right. left.
Defined.

Lemma eval_category_contribution G ar ac :
  eval (category_contribution ar ac) G =
  if truthy (a_category ar) && truthy (a_category ac) &&
     bool_decide (a_category ar = a_category ac)
  then Ok (3.0%Q, Some "same_category")
  else if joined G (a_category ar) (a_category ac) then Raise AttributeError
       else Ok (0%Q, None).
Proof.
  unfold category_contribution. cbv zeta.
  destruct (_ && _ && _) eqn:Hsame; [done|].
  rewrite eval_bind, eval_categories_are_similar by auto with readonly.
  unfold joined.
  destruct (truthy (a_category ar)), (truthy (a_category ac)); cbn [negb orb andb] in *;
    try done.
  rewrite Hsame. cbn [negb andb]. by destruct (_ || _).
Qed.

(** X7: the errors of [score_candidate]: [KeyError] when the requested or
    the candidate id is not a node; [AttributeError] when their categories
    are non-empty, differ and are joined by a labelled edge; in every other
    case a score and a list of reasons are returned. *)
Theorem score_candidate_errors G requested candidate tags ob :
  match g_node G !! requested, g_node G !! candidate with
  | Some ar, Some ac =>
      if joined G (a_category ar) (a_category ac)
      then eval (score_candidate requested candidate tags ob) G = Raise AttributeError
      else ∃ s reasons, eval (score_candidate requested candidate tags ob) G = Ok (s, reasons)
  | _, _ => eval (score_candidate requested candidate tags ob) G = Raise KeyError
  end.
Proof.
  destruct (g_node G !! requested) as [ar|] eqn:Hr;
    [|apply score_candidate_missing_node; auto].
  destruct (g_node G !! candidate) as [ac|] eqn:Hc;
    [|apply score_candidate_missing_node; auto].
  pose proof (score_candidate_sum requested candidate ar ac tags ob G Hr Hc) as Hs.
  unfold sum_of_rules in Hs. rewrite eval_bind, eval_category_contribution in Hs
    by auto with readonly.
  assert (joined G (a_category ar) (a_category ac) = true →
          truthy (a_category ar) && truthy (a_category ac) &&
          bool_decide (a_category ar = a_category ac) = false) as Hj.
  { unfold joined. intros (((_ & _)%andb_true_iff & H%negb_true_iff)%andb_true_iff
                            & _)%andb_true_iff.
    rewrite H. apply andb_false_r. }
  destruct (joined G (a_category ar) (a_category ac)).
  - rewrite Hj in Hs by done.
    by destruct (eval (score_candidate _ _ _ _) G) as [[]| |]; cbn in Hs; subst.
  - destruct (eval (score_candidate _ _ _ _) G) as [[s l]| |]; [eauto| |];
      by destruct (_ && _ && _).
Qed.

(** X9: no list of reasons that [score_candidate] returns holds
    [related_category]: the call of [categories_are_similar] that could
    award it returns [False] or raises. *)
Theorem related_category_never_awarded G requested candidate tags ob s reasons :
  eval (score_candidate requested candidate tags ob) G = Ok (s, reasons) →
  "related_category" ∉ reasons.
Proof.
  intros H.
  destruct (g_node G !! requested) as [ar|] eqn:Hr;
    [|rewrite score_candidate_missing_node in H by auto; done].
  destruct (g_node G !! candidate) as [ac|] eqn:Hc;
    [|rewrite score_candidate_missing_node in H by auto; done].
  pose proof (score_candidate_sum requested candidate ar ac tags ob G Hr Hc) as Hs.
  rewrite H in Hs. unfold sum_of_rules in Hs.
  rewrite eval_bind, eval_category_contribution in Hs by auto with readonly.
  assert (∃ c1 : contribution, c1.2 ≠ Some "related_category" ∧
     reasons = option_list c1.2 ++ option_list (brand_contribution ar ac ob).2 ++
               option_list (tags_contribution ac tags).2 ++
               option_list (price_contribution ar ac).2) as (c1 & Hc1 & ->).
  { destruct (_ && _ && _); [|destruct (joined _ _ _); [done|]];
      cbv zeta in Hs; rewrite eval_ret in Hs; destruct Hs as [_ ->]; eexists; (split; [|done]);
      done. }
  clear H Hs. rewrite !elem_of_app. intros [H1 | [H2 | [H3 | H4]]].
  - destruct c1 as [? [r|]]; cbn in *; [|by apply elem_of_nil in H1].
    apply list_elem_of_singleton in H1. congruence.
  - unfold brand_contribution in H2. repeat case_match; cbn in H2;
      solve [by apply elem_of_nil in H2 | by apply list_elem_of_singleton in H2].
  - unfold tags_contribution in H3. cbv zeta in H3. repeat case_match; cbn in H3;
      solve [by apply elem_of_nil in H3 | by apply list_elem_of_singleton in H3].
  - unfold price_contribution in H4. repeat case_match; cbn in H4;
      solve [by apply elem_of_nil in H4 | by apply list_elem_of_singleton in H4].
Qed.

Lemma related_category_never_awarded_witness :
  "related_category" ∉ ["same_category"; "more_expensive"].
Proof.
  apply (related_category_never_awarded pricey "P1" "P2" ∅ None 2.75000%Q).
  by vm_compute.
Defined.

Lemma constraints_ok_inv G n mp tags ob :
  eval (constraints_ok n mp tags ob) G = Ok true →
  ∃ a, g_node G !! n = Some a ∧
       match mp with None => True | Some m => ∃ p, a_price a = Some p ∧ (p <= m)%Q end ∧
       tags ⊆ list_to_set (default [] (a_tags a)) ∧
       match ob with None => True | Some b => a_brand a = Some b end.
Proof.
  unfold constraints_ok. intros H.
  destruct (g_node G !! n) as [a|] eqn:Ha; cycle 1.
  { exfalso. destruct mp as [m|]; rewrite eval_bind in H by readonly_auto.
    - rewrite eval_bind, eval_get_price, Ha in H by readonly_auto. done.
    - rewrite eval_ret in H. rewrite eval_bind, eval_get_tags, Ha in H by readonly_auto.
      done. }
  exists a. split; [done|].
  assert (∃ pb, eval (match mp with
                | Some m => p <- get_price n;; lift (le_price p m)
                | None => ret true
                end) G = Ok pb ∧
          (pb = true → match mp with None => True
                       | Some m => ∃ p, a_price a = Some p ∧ (p <= m)%Q end)) as (pb & Hpb & Hp).
  { destruct mp as [m|]; [|by exists true]. eval_steps.
    destruct (a_price a) as [p|] eqn:Hpa; cbn.
    - eexists. split; [done|]. intros Hle%Qle_bool_iff. eauto.
    - exfalso. rewrite eval_bind in H by readonly_auto.
      rewrite eval_bind, eval_get_price, Ha, Hpa in H by readonly_auto. done. }
  rewrite eval_bind, Hpb in H by readonly_auto.
  rewrite eval_bind, eval_get_tags, Ha in H by readonly_auto. cbv zeta in H.
  assert (∃ bb, eval (match ob with
                | Some b => cb <- get_brand n;; ret (bool_decide (cb = Some b))
                | None => ret true
                end) G = Ok bb ∧
          (bb = true → match ob with None => True | Some b => a_brand a = Some b end))
    as (bb & Hbb & Hb).
  { destruct ob as [b|]; [|by exists true]. eval_steps.
    eexists. split; [done|]. by intros ?%bool_decide_eq_true. }
  rewrite eval_bind, Hbb, eval_ret in H by readonly_auto.
  injection H as [[Hp' Ht']%andb_true_iff Hb']%andb_true_iff.
  apply bool_decide_eq_true in Ht'. split; [by apply Hp|]. split; [done | by apply Hb].
Qed.

(** X8: a candidate that passes the hard filters of lines 82-85 scores at
    most 7, and its reasons are among [same_category], [brand_match],
    [same_brand], [all_required_tags_matched], [cheaper_or_equal_price] and
    [more_expensive]: neither [different_brand] nor a [missing_tags] reason
    occurs. *)
Theorem filtered_candidate_score G requested candidate mp tags ob s reasons :
  eval (constraints_ok candidate mp tags ob) G = Ok true →
  eval (score_candidate requested candidate tags ob) G = Ok (s, reasons) →
  (s <= 7)%Q ∧ ∀ r, r ∈ reasons → r ∈ filtered_reasons.
Proof.
  intros (ac & Hc & _ & Htags & Hbrand)%constraints_ok_inv H.
  destruct (g_node G !! requested) as [ar|] eqn:Hr;
    [|rewrite score_candidate_missing_node in H by auto; done].
  pose proof (score_candidate_sum requested candidate ar ac tags ob G Hr Hc) as Hs.
  rewrite H in Hs. unfold sum_of_rules in Hs.
  rewrite eval_bind, eval_category_contribution in Hs by auto with readonly.
  assert (∃ c1 : contribution,
     (c1 = (3.0%Q, Some "same_category") ∨ c1 = (0%Q, None)) ∧
     (s == 0.0 + c1.1 + (brand_contribution ar ac ob).1 + (tags_contribution ac tags).1 +
          (price_contribution ar ac).1)%Q ∧
     reasons = option_list c1.2 ++ option_list (brand_contribution ar ac ob).2 ++
               option_list (tags_contribution ac tags).2 ++
               option_list (price_contribution ar ac).2) as (c1 & Hc1 & Hsum & ->).
  { destruct (_ && _ && _); [|destruct (joined _ _ _); [done|]];
      cbv zeta in Hs; rewrite eval_ret in Hs; destruct Hs as [Hs ->]; eexists;
      (split; [|split; [exact Hs | done]]); auto. }
  clear H Hs.
  assert (brand_contribution ar ac ob = (1.0%Q, Some "brand_match") ∨
          brand_contribution ar ac ob = (0.5%Q, Some "same_brand") ∨
          brand_contribution ar ac ob = (0%Q, None)) as Hc2.
  { unfold brand_contribution. destruct ob as [b|]; cbn [truthy].
    - rewrite Hbrand, (bool_decide_eq_true_2 (Some b = Some b)) by done.
      destruct (negb _); [eauto|]. destruct (bool_decide _); eauto.
    - destruct (bool_decide _); eauto. }
  assert (tags_contribution ac tags = (2.0%Q, Some "all_required_tags_matched") ∨
          tags_contribution ac tags = (0%Q, None)) as Hc3.
  { unfold tags_contribution. cbv zeta. destruct (bool_decide (tags = ∅)); [eauto|].
    rewrite bool_decide_eq_true_2; [eauto|]. apply subseteq_intersection_1_L, Htags. }
  assert (((price_contribution ar ac).1 <= 1)%Q ∧
          ((price_contribution ar ac).2 = None ∨
           (price_contribution ar ac).2 = Some "cheaper_or_equal_price" ∨
           (price_contribution ar ac).2 = Some "more_expensive")) as [Hc4 Hr4].
  { unfold price_contribution. destruct (a_price ar) as [rp|], (a_price ac) as [cp|];
      try (split; [by cbn | auto]).
    destruct (Qle_bool cp rp) eqn:Hle; [split; [by cbn | auto]|].
    destruct (excess rp cp) as [x| |] eqn:Hx; [|split; [by cbn | auto]..].
    split; [|auto]. cbn [fst].
    assert (rp < cp)%Q as Hlt.
    { apply Qnot_le_lt. intros Hle'%Qle_bool_iff. congruence. }
    destruct (py_max_is_max 1.0 rp) as (Hm & _ & _).
    assert (0 <= (cp - rp) / py_max 1.0 rp)%Q.
    { apply Qle_shift_div_l; [lra | lra]. }
    rewrite (excess_value rp cp x Hx). lra. }
  split.
  - rewrite Hsum.
    destruct Hc1 as [E1 | E1], Hc2 as [E2 | [E2 | E2]], Hc3 as [E3 | E3];
      rewrite E1, E2, E3; cbn [fst]; lra.
  - apply Forall_forall. rewrite !Forall_app. repeat split.
    + destruct Hc1 as [E | E]; rewrite E; solve [repeat constructor].
    + destruct Hc2 as [E | [E | E]]; rewrite E; solve [repeat constructor].
    + destruct Hc3 as [E | E]; rewrite E; solve [repeat constructor].
    + destruct Hr4 as [E | [E | E]]; rewrite E; solve [repeat constructor].
Qed.

Lemma filtered_candidate_score_witness :
  (2.75000 <= 7)%Q ∧ ∀ r, r ∈ ["same_category"; "more_expensive"] → r ∈ filtered_reasons.
Proof.
  apply (filtered_candidate_score pricey "P1" "P2" (Some 200%Q) ∅ None); by vm_compute.
Defined.

(** ** The outcomes of a query *)

Lemma walk_endpoint G n a b : walk G n a b → b = a ∨ b ∈ endpoints G.
Proof.
  intros Hw. inversion Hw as [|n' a' b' c Hw' Hc]; subst; [by left|].
  right. by eapply adjacent_endpoints.
Qed.

Lemma NoDup_incl_length (l k : list string) :
  NoDup l → (∀ x, x ∈ l → x ∈ k) → length l ≤ length k.
Proof. intros Hnd Hin. apply submseteq_length. by apply NoDup_submseteq. Qed.

(** X10: a query always ends (the fuel of the loop suffices on every graph);
    its traversal appends at most one queue entry per visited node, and
    visits at most one node more than twice the number of edges. *)
Theorem traversal_work_bound q G :
  eval (find_alternatives q) G ≠ OutOfFuel ∧
  ∀ st, traversal q G = Some st →
        length (enqueued st) ≤ length (visited st) ∧
        length (visited st) ≤ S (2 * length (g_edges G)).
Proof.
  split; [apply find_alternatives_terminates|].
  intros st [Hv He Hi Hq Hr Hc]%traversal_inv. split.
  - rewrite <- (length_fmap q_node). apply NoDup_incl_length; [done|].
    intros x (it & -> & Hit)%list_elem_of_fmap. by destruct (Hi it Hit).
  - transitivity (length (requested_product_id q :: endpoints G)).
    + apply NoDup_incl_length; [done|]. intros v Hvis.
      destruct (Hr v Hvis) as (n & _ & Hw). apply elem_of_cons.
      by apply walk_endpoint in Hw.
    + unfold endpoints. cbn [length]. rewrite length_app, !length_fmap. lia.
Qed.

Lemma traversal_work_bound_witness :
  length (enqueued (default (initial_state "") (traversal (simple_query "P0") chain))) ≤ 6.
Proof.
  destruct (proj2 (traversal_work_bound (simple_query "P0") chain)
              (default (initial_state "") (traversal (simple_query "P0") chain)))
    as [H1 H2]; [by vm_compute|].
  etransitivity; [exact H1|]. by vm_compute.
Defined.

Lemma early_return_exact q tags G r :
  eval (early_return q tags) G = Ok (Some r) →
  is_Some (r_exact_match r) →
  ∃ a, g_node G !! requested_product_id q = Some a ∧
       a_type a = Some "product" ∧ default false (a_in_stock a) = true ∧
       eval (constraints_ok (requested_product_id q) (max_price q) tags (optional_brand q)) G
         = Ok true.
Proof.
  intros H Hex. unfold early_return in H. cbv zeta in H.
  rewrite eval_bind, eval_has_node in H by auto with readonly.
  destruct (g_node G !! requested_product_id q) as [a|] eqn:Ha; cycle 1.
  { rewrite bool_decide_eq_false_2 in H by (by intros []). cbn [negb] in H.
    rewrite eval_ret in H. injection H as <-. by destruct Hex. }
  rewrite bool_decide_eq_true_2 in H by eauto. cbn [negb] in H.
  rewrite eval_bind, eval_is_product, Ha in H by auto with readonly.
  exists a. split; [done|].
  case_bool_decide as Hty.
  - rewrite eval_bind, eval_in_stock, Ha in H by auto with readonly.
    destruct (default false (a_in_stock a)); cbn [andb] in H.
    + rewrite eval_bind in H by auto with readonly.
      destruct (eval (constraints_ok _ _ _ _) G) as [[]| |]; cbn in H; try done.
    + done.
  - rewrite eval_bind, eval_ret in H by auto with readonly. done.
Qed.

(** X11: [exact_match] is returned only for the requested id, alone in the
    dict, and only when the requested node is a product in stock that has a
    price within the ceiling (when one is given), carries every required
    tag and has the preferred brand (when one is given). *)
Theorem exact_match_only_when_valid q G r x :
  eval (find_alternatives q) G = Ok r →
  r_exact_match r = Some x →
  x = requested_product_id q ∧ r_error r = None ∧ r_alternatives r = None ∧
  ∃ a, g_node G !! requested_product_id q = Some a ∧
       a_type a = Some "product" ∧ default false (a_in_stock a) = true ∧
       match max_price q with
       | None => True
       | Some m => ∃ p, a_price a = Some p ∧ (p <= m)%Q
       end ∧
       (list_to_set (default [] (required_tags q)) : gset string)
         ⊆ list_to_set (default [] (a_tags a)) ∧
       match optional_brand q with None => True | Some b => a_brand a = Some b end.
Proof.
  intros Hr Hx.
  rewrite eval_find_alternatives, find_alternatives_run_eq in Hr. cbv zeta in Hr.
  destruct (eval (early_return q (list_to_set (default [] (required_tags q)))) G)
    as [[r'|]| |] eqn:He; cbn [snd] in Hr; try done.
  - injection Hr as <-.
    destruct (early_return_exact _ _ _ _ He) as (a & Ha & Hty & Hst & Hok);
      [by rewrite Hx|].
    pose proof (early_return_present q _ G r' (ltac:(by rewrite Ha)) He) as ->.
    cbn in Hx. injection Hx as <-. repeat (split; [done|]).
    apply constraints_ok_inv in Hok as (a' & Ha' & ? & ? & ?).
    rewrite Ha in Ha'. injection Ha' as <-. eauto 10.
  - destruct (bfs_while _ _ _ _ _).2.2; cbn [snd] in Hr; try done.
    apply rank_result in Hr as [_ Hr]. congruence.
Qed.

Lemma exact_match_only_when_valid_witness :
  "P1" = "P1" ∧ (@None string) = None ∧ (@None (list candidate)) = None.
Proof.
  destruct (exact_match_only_when_valid (simple_query "P1") pricey
              (Result None (Some "P1") None) "P1") as (H1 & H2 & H3 & _);
    [by vm_compute | done | done].
Defined.

(** X12: whenever the requested product is in stock and has no price, a
    query with a price ceiling raises [TypeError] at line 52, before the
    traversal starts. *)
Theorem missing_price_with_ceiling q G a m :
  g_node G !! requested_product_id q = Some a →
  a_type a = Some "product" →
  default false (a_in_stock a) = true →
  a_price a = None →
  max_price q = Some m →
  eval (find_alternatives q) G = Raise TypeError ∧ traversal q G = None.
Proof.
  intros Ha Hty Hst Hp Hm.
  assert (eval (early_return q (list_to_set (default [] (required_tags q)))) G =
          Raise TypeError) as He.
  { unfold early_return. cbv zeta. eval_steps.
    rewrite bool_decide_eq_true_2 by eauto. cbn [negb]. eval_steps.
    rewrite Hty, bool_decide_eq_true_2 by done. eval_steps. rewrite Hst. cbn [andb].
    rewrite eval_bind by auto with readonly.
    by rewrite Hm, (constraints_ok_missing_price G _ a). }
  unfold traversal. rewrite eval_find_alternatives, find_alternatives_run_eq.
  cbv zeta. by rewrite He.
Qed.

Lemma missing_price_with_ceiling_witness :
  eval (find_alternatives (Query "P1" (Some 5%Q) None None 3)) unpriced = Raise TypeError ∧
  traversal (Query "P1" (Some 5%Q) None None 3) unpriced = None.
Proof.
  apply (missing_price_with_ceiling (Query "P1" (Some 5%Q) None None 3) unpriced
           (Attrs (Some "product") (Some "Pen") None (Some "X") (Some true) (Some []) None)
           5%Q); reflexivity.
Defined.

Lemma consider_quiet q tags nbr path cands G a :
  g_node G !! nbr = Some a →
  a_type a ≠ Some "product" ∨ nbr = requested_product_id q →
  eval (consider q tags nbr path cands) G = Ok cands.
Proof.
  intros Ha H. unfold consider. eval_steps.
  destruct H as [H | ->].
  - rewrite (bool_decide_eq_false_2 _ H). by eval_steps.
  - rewrite (bool_decide_eq_false_2 (_ ≠ _)) by (intros H; by apply H).
    rewrite andb_false_r. by eval_steps.
Qed.

Lemma wf_endpoint_present G x : wf_graph G → x ∈ endpoints G → is_Some (g_node G !! x).
Proof.
  intros [_ Hends]. rewrite Forall_forall in Hends. unfold endpoints.
  rewrite elem_of_app, !list_elem_of_fmap.
  intros [(e & -> & He) | (e & -> & He)]; by destruct (Hends e He).
Qed.

Section quiet.
Context (G : DiGraph) (q : query) (tags : gset string).
Let r := requested_product_id q.
Context (Hwf : wf_graph G).
Context (Hnp : ∀ n a, within 5 G r n = true → n ≠ r →
                      g_node G !! n = Some a → a_type a ≠ Some "product").

Lemma visit_quiet dist path node nbr st :
  dist ≤ 4 → walk G dist r node → nbr ∈ adjacent G node →
  (visit q tags dist path nbr st G).2.2 = Ok tt.
Proof using Hwf Hnp.
  intros Hd Hw Hadj. unfold visit. case_bool_decide; [done|].
  rewrite (readonly_run (consider _ _ _ _ _) G) by auto with readonly.
  destruct (wf_endpoint_present G nbr Hwf (adjacent_endpoints _ _ _ Hadj)) as [a Ha].
  rewrite (consider_quiet _ _ _ _ _ _ a Ha).
  - by destruct (_ <=? _).
  - destruct (decide (nbr = r)) as [|Hne]; [by right | left].
    apply (Hnp nbr a); [|done..]. apply within_walk. exists (S dist).
    split; [lia | by eapply walk_hop].
Qed.

Lemma for_neighbors_quiet dist path node nbrs st :
  dist ≤ 4 → walk G dist r node → (∀ x, x ∈ nbrs → x ∈ adjacent G node) →
  (for_neighbors q tags dist path nbrs st G).2.2 = Ok tt.
Proof using Hwf Hnp.
  intros Hd Hw. revert st. induction nbrs as [|nbr rest IH]; intros st Hsub; [done|].
  cbn [for_neighbors].
  pose proof (visit_quiet dist path node nbr st Hd Hw (Hsub _ ltac:(left))) as Hv.
  pose proof (readonly_visit q tags dist path nbr st G) as Hro.
  destruct (visit q tags dist path nbr st G) as [G' [st' [[]| |]]];
    cbn [fst snd] in *; subst G'; try done.
  apply IH. intros x Hx. apply Hsub. by right.
Qed.

Lemma bfs_while_quiet fuel st :
  is_Some (g_node G !! r) →
  bfs_inv G r st → measure G st ≤ fuel →
  (bfs_while fuel q tags st G).2.2 = Ok tt.
Proof using Hwf Hnp.
  intros Hreq. revert st. induction fuel as [|fuel IH]; intros st Hinv Hm; cbn [bfs_while].
  - destruct (queue st) eqn:Hq; [done|]. unfold measure in Hm. rewrite Hq in Hm.
    simpl in Hm. lia.
  - destruct (queue st) as [|item rest] eqn:Hq; [done|].
    set (st0 := BfsState rest (visited st) (candidates st) (enqueued st)).
    assert (item ∈ enqueued st) as Hitem.
    { apply (inv_queue _ _ _ Hinv). rewrite Hq. apply elem_of_cons. by left. }
    destruct (inv_items _ _ _ Hinv item Hitem) as (_ & Hd & Hw).
    assert (bfs_inv G r st0) as Hinv0.
    { destruct Hinv as [Hv He Hi Hqu Hr Hc]. split; try done.
      intros it Hit. apply Hqu. rewrite Hq. apply elem_of_cons. by right. }
    assert (measure G st0 ≤ fuel) as Hm0.
    { unfold measure, unvisited in *. rewrite Hq in Hm. simpl in *. lia. }
    rewrite (readonly_run (neighbors_of _) G) by auto with readonly.
    rewrite eval_neighbors_of.
    assert (is_Some (g_node G !! q_node item)) as [a ->].
    { destruct (walk_endpoint _ _ _ _ Hw) as [-> | He]; [done|].
      by apply wf_endpoint_present. }
    pose proof (for_neighbors_inv G q tags (q_dist item) (q_path item) (q_node item)
                  (adjacent G (q_node item)) st0 Hinv0 Hd Hw (fun _ H => H)) as Hf.
    pose proof (for_neighbors_quiet (q_dist item) (q_path item) (q_node item)
                  (adjacent G (q_node item)) st0 Hd Hw (fun _ H => H)) as Hquiet.
    pose proof (readonly_for_neighbors q tags (q_dist item) (q_path item)
                  (adjacent G (q_node item)) st0 G) as Hro.
    destruct (for_neighbors _ _ _ _ _ _ _) as [G' [st' [[]| |]]];
      cbn [fst snd] in *; subst G'; try done.
    destruct Hf as (Hinv' & Hm' & _). apply IH; [done | lia].
Qed.
End quiet.

Lemma no_product_from_endpoints G r :
  Forall (fun n => n = r ∨ match g_node G !! n with
                          | Some an => a_type an ≠ Some "product"
                          | None => True
                          end) (endpoints G) →
  ∀ n an, within 5 G r n = true → n ≠ r → g_node G !! n = Some an →
          a_type an ≠ Some "product".
Proof.
  intros Hall n an (k & _ & Hw)%within_walk Hne Han.
  apply walk_endpoint in Hw as [-> | Hend]; [done|].
  rewrite Forall_forall in Hall. destruct (Hall n Hend) as [-> | H]; [done|].
  by rewrite Han in H.
Qed.

(** X13: on a well-formed graph, when the requested node is no product or
    is out of stock and no other product lies within five hops of it, the
    query returns an empty list of alternatives. *)
Theorem no_product_in_reach q G a :
  wf_graph G →
  g_node G !! requested_product_id q = Some a →
  a_type a ≠ Some "product" ∨ default false (a_in_stock a) = false →
  (∀ n an, within 5 G (requested_product_id q) n = true → n ≠ requested_product_id q →
           g_node G !! n = Some an → a_type an ≠ Some "product") →
  eval (find_alternatives q) G = Ok (Result None None (Some [])).
Proof.
  intros Hwf Ha Hskip Hnp.
  assert (eval (early_return q (list_to_set (default [] (required_tags q)))) G = Ok None)
    as He.
  { unfold early_return. cbv zeta. eval_steps.
    rewrite bool_decide_eq_true_2 by eauto. cbn [negb]. eval_steps.
    destruct Hskip as [Hty | Hst].
    - rewrite (bool_decide_eq_false_2 _ Hty). by eval_steps.
    - case_bool_decide; eval_steps; [|done]. rewrite Hst. by eval_steps. }
  rewrite eval_find_alternatives, find_alternatives_run_eq. cbv zeta. rewrite He.
  pose proof (bfs_from_initial G q (list_to_set (default [] (required_tags q))))
    as [Hinv _]. cbv zeta in Hinv.
  rewrite (bfs_while_quiet G q _ Hwf Hnp); cbn [snd].
  - by rewrite (inv_candidates _ _ _ Hinv), rank_nil.
  - eauto.
  - apply initial_state_inv.
  - apply initial_state_measure.
Qed.

Lemma no_product_in_reach_witness :
  eval (find_alternatives (simple_query "P0")) chain = Ok (Result None None (Some [])).
Proof.
  apply (no_product_in_reach (simple_query "P0") chain
           (product "Pen" (Some 100%Q) (Some "X") false [] "c1")).
  - apply (bool_decide_unpack _). by vm_compute.
  - reflexivity.
  - by right.
  - apply no_product_from_endpoints.
    assert (endpoints chain = ["P0"; "c1"; "c2"; "c3"; "c4"; "c1"; "c2"; "c3"; "c4"; "c5"])
      as -> by (by vm_compute).
    repeat (apply Forall_cons; split; [first [by left | right; by vm_compute]|]).
    by apply Forall_nil.
Defined.

(** ** Queue entries *)

Section enqueued.
Context (G : DiGraph) (q : query) (tags : gset string) (P : qitem → Prop).
Context (Hstep : ∀ it nbr, P it → nbr ∈ adjacent G (q_node it) →
                           P (QItem nbr (q_dist it + 1) (q_path it ++ [nbr]))).

Lemma visit_entries dist path node nbr st :
  P (QItem node dist path) → nbr ∈ adjacent G node → all_entries P st →
  all_entries P (visit q tags dist path nbr st G).2.1.
Proof using Hstep.
  intros Hit Hadj [He Hq].
  destruct (visit_cases q tags dist path nbr st G) as [[_ ->] | [_ [[e ->] | ->]]];
    cbn [fst snd]; [done..|].
  destruct (_ <=? _); [|done]. split; cbn [push mark enqueued queue];
    (apply Forall_app; split; [done|]); apply Forall_singleton;
    apply (Hstep (QItem node dist path) nbr Hit Hadj).
Qed.

Lemma for_neighbors_entries dist path node nbrs st :
  P (QItem node dist path) → (∀ x, x ∈ nbrs → x ∈ adjacent G node) → all_entries P st →
  all_entries P (for_neighbors q tags dist path nbrs st G).2.1.
Proof using Hstep.
  intros Hit. revert st. induction nbrs as [|nbr rest IH]; intros st Hsub Hall; [done|].
  cbn [for_neighbors].
  pose proof (visit_entries dist path node nbr st Hit (Hsub _ ltac:(left)) Hall) as Hv.
  pose proof (readonly_visit q tags dist path nbr st G) as Hro.
  destruct (visit q tags dist path nbr st G) as [G' [st' [[]| |]]];
    cbn [fst snd] in *; subst G'; try done.
  apply IH; [|done]. intros x Hx. apply Hsub. by right.
Qed.

Lemma bfs_while_entries fuel st :
  all_entries P st → all_entries P (bfs_while fuel q tags st G).2.1.
Proof using Hstep.
  revert st. induction fuel as [|fuel IH]; intros st Hall; cbn [bfs_while].
  - by destruct (queue st).
  - destruct (queue st) as [|item rest] eqn:Hq; [done|].
    set (st0 := BfsState rest (visited st) (candidates st) (enqueued st)).
    assert (P item ∧ all_entries P st0) as [Hitem Hall0].
    { destruct Hall as [He Hqu]. rewrite Hq in Hqu. apply Forall_cons in Hqu as [? ?].
      done. }
    rewrite (readonly_run (neighbors_of _) G) by auto with readonly.
    rewrite eval_neighbors_of. destruct (g_node G !! q_node item); [|done].
    pose proof (for_neighbors_entries (q_dist item) (q_path item) (q_node item)
                  (adjacent G (q_node item)) st0 ltac:(by destruct item) (fun _ H => H) Hall0)
      as Hf.
    pose proof (readonly_for_neighbors q tags (q_dist item) (q_path item)
                  (adjacent G (q_node item)) st0 G) as Hro.
    destruct (for_neighbors _ _ _ _ _ _ _) as [G' [st' [[]| |]]];
      cbn [fst snd] in *; subst G'; try done.
    by apply IH.
Qed.
End enqueued.

Lemma traversal_entries G q (P : qitem → Prop) st :
  P (QItem (requested_product_id q) 0 [requested_product_id q]) →
  (∀ it nbr, P it → nbr ∈ adjacent G (q_node it) →
             P (QItem nbr (q_dist it + 1) (q_path it ++ [nbr]))) →
  traversal q G = Some st → Forall P (enqueued st).
Proof.
  intros H0 Hstep Ht. unfold traversal in Ht. rewrite find_alternatives_run_eq in Ht.
  cbv zeta in Ht.
  destruct (eval (early_return q _) G) as [[r'|]| |]; try done.
  pose proof (bfs_while_entries G q (list_to_set (default [] (required_tags q))) P Hstep
                (bfs_fuel G) (initial_state (requested_product_id q))) as [He _].
  { split; by apply Forall_singleton. }
  destruct (bfs_while _ _ _ _ _).2 as [st' [[]| |]]; cbn [fst snd] in *;
    injection Ht as <-; done.
Qed.

Lemma linked_snoc G l a b :
  linked G l → last l = Some a → b ∈ adjacent G a → linked G (l ++ [b]).
Proof.
  induction l as [|x l IH]; [done|]. destruct l as [|y l].
  - cbn. intros _ [= ->] Hb. done.
  - intros [Hxy Hl] Hlast Hb. cbn [app linked]. split; [done|].
    apply IH; [done | | done]. by rewrite last_cons_cons in Hlast.
Qed.

(** X15: the path stored with a queue entry starts at the requested node,
    ends at the node of the entry, has one node more than the depth of the
    entry, and consecutive nodes of it are joined by an edge. *)
Theorem enqueued_paths q G st it :
  traversal q G = Some st → it ∈ enqueued st →
  path_ok G (requested_product_id q) it.
Proof.
  intros Ht Hit.
  pose proof (traversal_entries G q (path_ok G (requested_product_id q)) st) as H.
  rewrite Forall_forall in H. apply H; [| |done..].
  - by repeat split.
  - clear. intros it nbr (Hh & Hl & Hlen & Hlink) Hadj. repeat split; cbn.
    + destruct (q_path it); [done|]. done.
    + by rewrite last_snoc.
    + rewrite length_app, Hlen. cbn. lia.
    + by eapply linked_snoc.
Qed.

Lemma enqueued_paths_witness :
  path_ok chain "P0" (QItem "c4" 4 ["P0"; "c1"; "c2"; "c3"; "c4"]).
Proof.
  apply (enqueued_paths (simple_query "P0") chain
    (BfsState [] ["P0"; "c1"; "c2"; "c3"; "c4"; "c5"] []
       [QItem "P0" 0 ["P0"]; QItem "c1" 1 ["P0"; "c1"]; QItem "c2" 2 ["P0"; "c1"; "c2"];
        QItem "c3" 3 ["P0"; "c1"; "c2"; "c3"];
        QItem "c4" 4 ["P0"; "c1"; "c2"; "c3"; "c4"]])); [by vm_compute|].
  do 4 (apply elem_of_cons; right). apply elem_of_cons. by left.
Defined.

(** ** Products within reach *)

Lemma step_of_refl dist st : step_of dist st st.
Proof.
  exists [], []. rewrite !app_nil_r. repeat split; try done.
  - by intros it ?%elem_of_nil.
  - by intros _ v ?%elem_of_nil.
Qed.

Lemma step_of_trans dist st1 st2 st3 :
  step_of dist st1 st2 → step_of dist st2 st3 → step_of dist st1 st3.
Proof.
  intros (v1 & q1 & Hv1 & He1 & Hq1 & Hd1 & Hn1) (v2 & q2 & Hv2 & He2 & Hq2 & Hd2 & Hn2).
  exists (v1 ++ v2), (q1 ++ q2). rewrite !app_assoc, <- Hv1, <- He1, <- Hq1.
  repeat split; try done.
  - intros it [?|?]%elem_of_app; auto.
  - intros Hd v [Hv|Hv]%elem_of_app.
    + destruct (Hn1 Hd v Hv) as (it & ? & ?). exists it. split; [|done].
      apply elem_of_app. by left.
    + destruct (Hn2 Hd v Hv) as (it & ? & ?). exists it. split; [|done].
      apply elem_of_app. by right.
Qed.

Section order.
Context (G : DiGraph) (q : query) (tags : gset string).
Let r := requested_product_id q.

Lemma visit_raises_on_product dist path nbr st :
  nbr ∉ visited st → other_product G r nbr →
  (visit q tags dist path nbr st G).2.2 = Raise TypeError.
Proof.
  intros Hvis [Hne (a & Ha & Hty)]. unfold visit.
  rewrite bool_decide_eq_false_2 by done. cbv zeta. cbn [queue visited candidates enqueued].
  rewrite (readonly_run (consider _ _ _ _ _) G) by auto with readonly.
  by rewrite (consider_product q tags nbr _ _ G a Ha Hty Hne).
Qed.

Lemma visit_ok dist path nbr st :
  (visit q tags dist path nbr st G).2.2 = Ok tt →
  let st' := (visit q tags dist path nbr st G).2.1 in
  step_of dist st st' ∧ nbr ∈ visited st' ∧
  (∀ v, v ∈ visited st' → v ∈ visited st ∨ ¬ other_product G r v).
Proof.
  intros Hok. cbv zeta.
  destruct (visit_cases q tags dist path nbr st G) as [[Hvis Hout] | [Hvis [[e Hout] | Hout]]].
  - rewrite Hout. cbn [fst snd]. split; [apply step_of_refl|]. split; [done | auto].
  - rewrite Hout in Hok. done.
  - assert (¬ other_product G r nbr) as Hquiet.
    { intros Hp. by rewrite (visit_raises_on_product dist path nbr st Hvis Hp) in Hok. }
    assert (∀ v, v ∈ visited st ++ [nbr] → v ∈ visited st ∨ ¬ other_product G r v) as Hq.
    { intros v [?|Hv%list_elem_of_singleton]%elem_of_app; [auto | subst; auto]. }
    assert (nbr ∈ visited st ++ [nbr]) as Hin.
    { apply elem_of_app. right. by apply list_elem_of_singleton. }
    rewrite Hout. cbn [fst snd].
    destruct (dist + 1 <=? 4) eqn:Hle; cbn [push mark visited queue enqueued candidates].
    + split; [|done].
      exists [nbr], [QItem nbr (dist + 1) (path ++ [nbr])]. repeat split.
      * by intros it ->%list_elem_of_singleton.
      * intros _ v ->%list_elem_of_singleton. eexists.
        split; [by apply list_elem_of_singleton | done].
    + split; [|done]. exists [nbr], []. rewrite !app_nil_r. repeat split.
      * by intros it ?%elem_of_nil.
      * intros Hd. apply Nat.leb_gt in Hle. lia.
Qed.

Lemma step_of_visited dist st st' v : step_of dist st st' → v ∈ visited st → v ∈ visited st'.
Proof. intros (nv & nq & -> & _) Hv. apply elem_of_app. by left. Qed.

Lemma for_neighbors_ok dist path nbrs st :
  (for_neighbors q tags dist path nbrs st G).2.2 = Ok tt →
  let st' := (for_neighbors q tags dist path nbrs st G).2.1 in
  step_of dist st st' ∧ (∀ x, x ∈ nbrs → x ∈ visited st') ∧
  (∀ v, v ∈ visited st' → v ∈ visited st ∨ ¬ other_product G r v).
Proof.
  revert st. induction nbrs as [|nbr rest IH]; intros st; cbn [for_neighbors].
  { intros _. cbn [fst snd]. split; [apply step_of_refl|]. split; [|auto].
    by intros x ?%elem_of_nil. }
  pose proof (visit_ok dist path nbr st) as Hv.
  pose proof (readonly_visit q tags dist path nbr st G) as Hro.
  destruct (visit q tags dist path nbr st G) as [G' [st1 [[]| |]]];
    cbn [fst snd] in *; subst G'; try done.
  destruct (Hv eq_refl) as (Hstep1 & Hin1 & Hq1).
  intros Hok. destruct (IH st1 Hok) as (Hstep2 & Hin2 & Hq2).
  split; [by eapply step_of_trans|]. split.
  - intros x [-> | Hx]%elem_of_cons; [|by apply Hin2].
    by eapply step_of_visited.
  - intros v Hv'. destruct (Hq2 v Hv') as [Hv1|?]; [|by right]. by apply Hq1.
Qed.

Lemma same_depth_sorted (l : list qitem) d :
  (∀ it, it ∈ l → q_dist it = d) → StronglySorted by_depth l.
Proof.
  induction l as [|x l IH]; intros H; constructor.
  - apply IH. intros it Hit. apply H. by right.
  - apply Forall_forall. intros y Hy. unfold by_depth.
    rewrite (H x), (H y); [done | by right | by left].
Qed.

Lemma bfs_order_pop done_ item rest st st' :
  bfs_order G r done_ st →
  queue st = item :: rest →
  step_of (q_dist item) (BfsState rest (visited st) (candidates st) (enqueued st)) st' →
  (∀ x, x ∈ adjacent G (q_node item) → x ∈ visited st') →
  (∀ v, v ∈ visited st' → v ∈ visited st ∨ ¬ other_product G r v) →
  bfs_order G r (done_ ++ [item]) st'.
Proof.
  intros [Hsplit Hsorted Hfront Hclosed Hseen Hroot Hrs Hquiet] Hq
    (nv & nq & Hv' & He' & Hq' & Hd & Hnew) Hall Hq1.
  cbn [visited enqueued queue] in *.
  assert (∀ it, it ∈ enqueued st → q_dist it ≤ q_dist item + 1) as Hold.
  { intros it Hit. apply (Hfront item it); [by rewrite Hq | done]. }
  assert (∀ p, p ∈ done_ → q_dist p ≤ q_dist item) as Hbefore.
  { intros p Hp. rewrite Hsplit, Hq in Hsorted.
    apply (StronglySorted_app_1_elem_of by_depth done_ (item :: rest) p item Hsorted Hp).
    by left. }
  assert (∀ f, f ∈ rest → q_dist item ≤ q_dist f) as Hafter.
  { intros f Hf. rewrite Hsplit, Hq in Hsorted.
    apply StronglySorted_app in Hsorted as (_ & _ & Hs).
    apply StronglySorted_inv in Hs as [_ Hs]. rewrite Forall_forall in Hs. by apply Hs. }
  assert (∀ it, it ∈ enqueued st' → q_dist it ≤ q_dist item + 1) as Hall_le.
  { intros it. rewrite He'. intros [?|Hit]%elem_of_app; [auto|]. rewrite (Hd it Hit). lia. }
  split.
  - rewrite He', Hq', Hsplit, Hq. by rewrite <- !app_assoc.
  - rewrite He'. apply StronglySorted_app_2; [|done|by eapply same_depth_sorted].
    intros x1 x2 H1 H2. unfold by_depth. rewrite (Hd x2 H2). auto.
  - intros f it Hf Hit. specialize (Hall_le it Hit).
    assert (q_dist item ≤ q_dist f); [|lia].
    rewrite Hq' in Hf. apply head_Some_elem_of in Hf.
    apply elem_of_app in Hf as [Hf|Hf]; [auto|]. rewrite (Hd f Hf). lia.
  - intros u v [Hu|Hu]%elem_of_app Hadj.
    + destruct (Hclosed u v Hu Hadj) as [Hvis Henq]. split.
      * rewrite Hv'. apply elem_of_app. by left.
      * intros Hle. destruct (Henq Hle) as (it & Hit & ? & ?). exists it.
        split; [|done]. rewrite He'. apply elem_of_app. by left.
    + apply list_elem_of_singleton in Hu as ->. split; [by apply Hall|].
      intros Hle. specialize (Hall v Hadj). rewrite Hv' in Hall.
      apply elem_of_app in Hall as [Hvold | Hvnew].
      * destruct (Hseen v Hvold) as [(it & Hit & Hn) | (p & Hp & Hp4)].
        -- exists it. split; [rewrite He'; apply elem_of_app; by left|]. split; [done | auto].
        -- specialize (Hbefore p Hp). lia.
      * destruct (Hnew Hle v Hvnew) as (it & Hit & Hn). exists it.
        split; [rewrite He'; apply elem_of_app; by right|]. split; [done|].
        rewrite (Hd it Hit). lia.
  - intros v. rewrite Hv'. intros [Hvold | Hvnew]%elem_of_app.
    + destruct (Hseen v Hvold) as [(it & Hit & Hn) | (p & Hp & Hp4)].
      * left. exists it. split; [rewrite He'; apply elem_of_app; by left | done].
      * right. exists p. split; [apply elem_of_app; by left | done].
    + destruct (decide (q_dist item + 1 ≤ 4)) as [Hle|Hgt].
      * left. destruct (Hnew Hle v Hvnew) as (it & Hit & Hn). exists it.
        split; [rewrite He'; apply elem_of_app; by right | done].
      * right. exists item. split; [|lia]. apply elem_of_app. right.
        by apply list_elem_of_singleton.
  - destruct Hroot as (it & Hit & ? & ?). exists it.
    split; [rewrite He'; apply elem_of_app; by left | done].
  - rewrite Hv'. apply elem_of_app. by left.
  - intros v Hv. destruct (Hq1 v Hv); auto.
Qed.

Lemma bfs_while_order fuel done_ st :
  bfs_order G r done_ st →
  (bfs_while fuel q tags st G).2.2 = Ok tt →
  ∃ done', bfs_order G r done' (bfs_while fuel q tags st G).2.1 ∧
           queue (bfs_while fuel q tags st G).2.1 = [].
Proof.
  revert done_ st. induction fuel as [|fuel IH]; intros done_ st Hord; cbn [bfs_while].
  - destruct (queue st) eqn:Hq; [|done]. intros _. by exists done_.
  - destruct (queue st) as [|item rest] eqn:Hq; [intros _; by exists done_|].
    set (st0 := BfsState rest (visited st) (candidates st) (enqueued st)).
    rewrite (readonly_run (neighbors_of _) G) by auto with readonly.
    rewrite eval_neighbors_of. destruct (g_node G !! q_node item); [|done].
    pose proof (for_neighbors_ok (q_dist item) (q_path item) (adjacent G (q_node item)) st0)
      as Hf.
    pose proof (readonly_for_neighbors q tags (q_dist item) (q_path item)
                  (adjacent G (q_node item)) st0 G) as Hro.
    destruct (for_neighbors _ _ _ _ _ _ _) as [G' [st' [[]| |]]];
      cbn [fst snd] in *; subst G'; try done.
    destruct (Hf eq_refl) as (Hstep & Hall & Hq1).
    apply (IH (done_ ++ [item])). by eapply bfs_order_pop.
Qed.

Lemma initial_state_order :
  ¬ other_product G r r → bfs_order G r [] (initial_state r).
Proof.
  intros Hr. split; cbn [initial_state queue visited enqueued candidates app].
  - done.
  - repeat constructor.
  - intros f it [= <-] ->%list_elem_of_singleton. lia.
  - by intros u v ?%elem_of_nil.
  - intros v ->%list_elem_of_singleton. left. eexists.
    split; [by apply list_elem_of_singleton | done].
  - eexists. split; [by apply list_elem_of_singleton | done].
  - by apply list_elem_of_singleton.
  - by intros v ->%list_elem_of_singleton.
Qed.

(** At the end of a traversal that did not raise, every node within four
    hops has a queue entry of at most its distance, and every node within
    five hops is visited. *)
Lemma order_enqueues done_ st k v :
  bfs_order G r done_ st → queue st = [] → k ≤ 4 → walk G k r v →
  ∃ it, it ∈ enqueued st ∧ q_node it = v ∧ q_dist it ≤ k.
Proof.
  intros Hord Hq Hk Hw. induction Hw as [|n a b c Hw IH Hc].
  - destruct (ord_root _ _ _ _ Hord) as (it & ? & ? & ?). exists it.
    split; [done|]. split; [done | lia].
  - destruct IH as (u & Hu & Hnu & Hdu); [done | lia |].
    assert (u ∈ done_) as Hdone.
    { by rewrite (ord_split _ _ _ _ Hord), Hq, app_nil_r in Hu. }
    rewrite <- Hnu in Hc.
    destruct (ord_closed _ _ _ _ Hord u c Hdone Hc) as [_ Henq].
    destruct Henq as (it & ? & ? & ?); [lia|]. exists it. split; [done|]. split; [done | lia].
Qed.

Lemma order_visits done_ st k v :
  bfs_order G r done_ st → queue st = [] → k ≤ 5 → walk G k r v → v ∈ visited st.
Proof.
  intros Hord Hq Hk Hw. inversion Hw as [|n a b c Hw' Hc]; subst.
  - by apply (ord_root_seen _ _ _ _ Hord).
  - destruct (order_enqueues done_ st n b Hord Hq) as (u & Hu & Hnu & _); [lia | done|].
    assert (u ∈ done_) as Hdone.
    { by rewrite (ord_split _ _ _ _ Hord), Hq, app_nil_r in Hu. }
    rewrite <- Hnu in Hc. by destruct (ord_closed _ _ _ _ Hord u v Hdone Hc).
Qed.
End order.

(** ** Which exceptions a query on a loaded graph can raise *)

Lemma constraints_ok_raises G n a mp tags ob e :
  g_node G !! n = Some a →
  eval (constraints_ok n mp tags ob) G = Raise e → e = TypeError.
Proof.
  intros Ha. unfold constraints_ok.
  destruct mp as [m|], ob as [b|]; eval_steps; try done;
    (destruct (a_price a); cbn [le_price]; eval_steps; congruence).
Qed.

Lemma early_return_raises q tags G e :
  is_Some (g_node G !! requested_product_id q) →
  eval (early_return q tags) G = Raise e → e = TypeError.
Proof.
  intros [a Ha] H. unfold early_return in H. cbv zeta in H.
  rewrite eval_bind, eval_has_node in H by auto with readonly.
  rewrite bool_decide_eq_true_2 in H by eauto.
  cbn [negb] in H. rewrite eval_bind, eval_is_product, Ha in H by auto with readonly.
  destruct (bool_decide (a_type a = Some "product")).
  - rewrite eval_bind, eval_in_stock, Ha in H by auto with readonly.
    destruct (default false (a_in_stock a)); cbn [andb] in H; [|done].
    rewrite eval_bind in H by auto with readonly.
    destruct (eval (constraints_ok _ _ _ _) G) as [[]|e'|] eqn:Hc; cbn in H; try done.
    injection H as <-. by eapply constraints_ok_raises.
  - rewrite eval_bind, eval_ret in H by auto with readonly. done.
Qed.

Lemma consider_present q tags nbr path cands G :
  is_Some (g_node G !! nbr) →
  eval (consider q tags nbr path cands) G = Ok cands ∨
  eval (consider q tags nbr path cands) G = Raise TypeError.
Proof.
  intros [a Ha].
  destruct (decide (a_type a = Some "product")) as [Hty|Hty];
    [destruct (decide (nbr = requested_product_id q)) as [Hr|Hr]|].
  - left. apply (consider_quiet _ _ _ _ _ _ a); auto.
  - right. by apply (consider_product _ _ _ _ _ _ a).
  - left. apply (consider_quiet _ _ _ _ _ _ a); auto.
Qed.

Section raises.
Context (G : DiGraph) (q : query) (tags : gset string).
Context (Hwf : wf_graph G).

Lemma adjacent_present node nbr : nbr ∈ adjacent G node → is_Some (g_node G !! nbr).
Proof using Hwf. intros H. eapply wf_endpoint_present, adjacent_endpoints; eauto. Qed.

Lemma visit_raises dist path nbr st e :
  is_Some (g_node G !! nbr) →
  (visit q tags dist path nbr st G).2.2 = Raise e → e = TypeError.
Proof.
  intros Hn. unfold visit. case_bool_decide; [done|]. cbv zeta.
  cbn [queue visited candidates enqueued].
  rewrite (readonly_run (consider _ _ _ _ _) G) by auto with readonly.
  destruct (consider_present q tags nbr (path ++ [nbr]) (candidates st) G Hn) as [-> | ->];
    cbn [fst snd].
  - by destruct (_ <=? _).
  - congruence.
Qed.

Lemma for_neighbors_raises dist path nbrs st e :
  (∀ x, x ∈ nbrs → is_Some (g_node G !! x)) →
  (for_neighbors q tags dist path nbrs st G).2.2 = Raise e → e = TypeError.
Proof.
  revert st. induction nbrs as [|nbr rest IH]; intros st Hsub; cbn [for_neighbors]; [done|].
  pose proof (visit_raises dist path nbr st e (Hsub _ ltac:(left))) as Hv.
  pose proof (readonly_visit q tags dist path nbr st G) as Hro.
  destruct (visit q tags dist path nbr st G) as [G' [st1 [[]| |]]];
    cbn [fst snd] in *; subst G'; try done.
  apply IH. intros x Hx. apply Hsub. by right.
Qed.

Lemma present_step it nbr :
  present G it → nbr ∈ adjacent G (q_node it) →
  present G (QItem nbr (q_dist it + 1) (q_path it ++ [nbr])).
Proof using Hwf. intros _ H. by eapply adjacent_present. Qed.

Lemma bfs_while_raises fuel st e :
  all_entries (present G) st →
  (bfs_while fuel q tags st G).2.2 = Raise e → e = TypeError.
Proof using Hwf.
  revert st. induction fuel as [|fuel IH]; intros st Hall; cbn [bfs_while].
  - by destruct (queue st).
  - destruct (queue st) as [|item rest] eqn:Hq; [done|].
    set (st0 := BfsState rest (visited st) (candidates st) (enqueued st)).
    assert (present G item ∧ all_entries (present G) st0) as [Hitem Hall0].
    { destruct Hall as [He Hqu]. rewrite Hq in Hqu. apply Forall_cons in Hqu as [? ?].
      done. }
    rewrite (readonly_run (neighbors_of _) G) by auto with readonly.
    rewrite eval_neighbors_of. destruct Hitem as [a Ha]. rewrite Ha.
    pose proof (for_neighbors_entries G q tags (present G) present_step
                  (q_dist item) (q_path item) (q_node item)
                  (adjacent G (q_node item)) st0 ltac:(by exists a) (fun _ H => H) Hall0)
      as Hf.
    pose proof (for_neighbors_raises (q_dist item) (q_path item)
                  (adjacent G (q_node item)) st0 e (fun x => adjacent_present _ x)) as Hr.
    pose proof (readonly_for_neighbors q tags (q_dist item) (q_path item)
                  (adjacent G (q_node item)) st0 G) as Hro.
    destruct (for_neighbors _ _ _ _ _ _ _) as [G' [st' [[]| |]]];
      cbn [fst snd] in *; subst G'; try done.
    by apply IH.
Qed.
End raises.

Lemma adjacent_source G n x : x ∈ adjacent G n → n ∈ endpoints G.
Proof.
  unfold adjacent, succ_list, pred_list, endpoints.
  rewrite !elem_of_app, !list_elem_of_fmap.
  intros [(e & -> & He) | (e & -> & He)]; apply list_elem_of_filter in He as [<- He];
    [left | right]; eauto.
Qed.

Lemma walk_present G n a b :
  wf_graph G → walk G n a b → b ≠ a → is_Some (g_node G !! a).
Proof.
  intros Hwf Hw. induction Hw as [|n a b c Hw IH Hc]; [done|]. intros _.
  destruct (decide (b = a)) as [->|Hne]; [|auto].
  apply (wf_endpoint_present G a Hwf). by eapply adjacent_source.
Qed.

(** X14: on a well-formed graph, when a product other than the requested
    one lies within five hops of it, the query returns no alternatives: it
    returns the exact match or raises [TypeError] (at line 79, or at line 52
    on a missing price). *)
Theorem product_in_reach q G p a :
  wf_graph G →
  within 5 G (requested_product_id q) p = true →
  p ≠ requested_product_id q →
  g_node G !! p = Some a → a_type a = Some "product" →
  eval (find_alternatives q) G = Ok (Result None (Some (requested_product_id q)) None) ∨
  eval (find_alternatives q) G = Raise TypeError.
Proof.
  intros Hwf (k & Hk & Hw)%within_walk Hne Ha Hty.
  assert (other_product G (requested_product_id q) p) as Hp by (split; eauto).
  pose proof (walk_present G k _ p Hwf Hw Hne) as Hr.
  set (tags := list_to_set (default [] (required_tags q)) : gset string).
  pose proof (total_early_return q tags G) as Ht.
  pose proof (bfs_from_initial G q tags) as [_ Hfuel]. cbv zeta in Hfuel.
  rewrite eval_find_alternatives, find_alternatives_run_eq. cbv zeta. fold tags.
  destruct (eval (early_return q tags) G) as [[r'|]|e|] eqn:He; cbn [snd]; [| | |done].
  - left. f_equal. by eapply early_return_present.
  - right.
    pose proof (bfs_while_order G q tags (bfs_fuel G) []
                  (initial_state (requested_product_id q))) as Hord.
    pose proof (bfs_while_raises G q tags Hwf (bfs_fuel G)
                  (initial_state (requested_product_id q))) as Hraise.
    destruct (bfs_while _ _ _ _ _).2 as [st [[]|e|]]; cbn [fst snd] in *; [| |done].
    + exfalso. destruct Hord as (done' & Hord & Hq); [|done|].
      { apply initial_state_order. by intros [? _]. }
      apply (ord_quiet _ _ _ _ Hord p); [|done].
      by eapply order_visits.
    + f_equal. apply Hraise; [|done]. split; by apply Forall_singleton.
  - right. f_equal. by eapply early_return_raises.
Qed.

Lemma product_in_reach_witness :
  eval (find_alternatives (simple_query "P1")) shop = Ok (Result None (Some "P1") None) ∨
  eval (find_alternatives (simple_query "P1")) shop = Raise TypeError.
Proof.
  apply (product_in_reach (simple_query "P1") shop "P2"
           (product "Pencil" (Some 80%Q) (Some "Y") true ["fast"] "C1")).
  - apply (bool_decide_unpack _). by vm_compute.
  - reflexivity.
  - discriminate.
  - reflexivity.
  - reflexivity.
Defined.

(** X20: on a well-formed graph a query has four outcomes: the error dict
    when the requested id is no node; otherwise the exact match, an empty
    list of alternatives, or [TypeError].  No other exception and no
    non-empty list occurs. *)
Theorem find_alternatives_outcomes q G :
  wf_graph G →
  let out := eval (find_alternatives q) G in
  match g_node G !! requested_product_id q with
  | None => out = Ok not_found
  | Some _ =>
      out = Ok (Result None (Some (requested_product_id q)) None) ∨
      out = Ok (Result None None (Some [])) ∨
      out = Raise TypeError
  end.
Proof.
  intros Hwf. cbv zeta.
  set (tags := list_to_set (default [] (required_tags q)) : gset string).
  pose proof (total_early_return q tags G) as Ht.
  pose proof (bfs_from_initial G q tags) as [Hinv Hfuel]. cbv zeta in Hinv, Hfuel.
  rewrite eval_find_alternatives, find_alternatives_run_eq. cbv zeta. fold tags.
  destruct (g_node G !! requested_product_id q) as [a|] eqn:Ha.
  2:{ by rewrite early_return_absent. }
  destruct (eval (early_return q tags) G) as [[r'|]|e|] eqn:He; cbn [snd]; [| | |done].
  - left. f_equal. apply (early_return_present q tags G); [by rewrite Ha | done].
  - right.
    pose proof (bfs_while_raises G q tags Hwf (bfs_fuel G)
                  (initial_state (requested_product_id q))) as Hraise.
    destruct (bfs_while _ _ _ _ _).2 as [st [[]|e|]]; cbn [fst snd] in *; [| |done].
    + left. by rewrite (inv_candidates _ _ _ Hinv), rank_nil.
    + right. f_equal. apply Hraise; [|done].
      split; apply Forall_singleton; by exists a.
  - right. right. f_equal. apply (early_return_raises q tags G); [by rewrite Ha | done].
Qed.

Lemma find_alternatives_outcomes_witness :
  eval (find_alternatives (simple_query "P1")) shop = Ok (Result None (Some "P1") None) ∨
  eval (find_alternatives (simple_query "P1")) shop = Ok (Result None None (Some [])) ∨
  eval (find_alternatives (simple_query "P1")) shop = Raise TypeError.
Proof.
  apply (find_alternatives_outcomes (simple_query "P1") shop).
  apply (bool_decide_unpack _). by vm_compute.
Defined.

(** ** Ranking *)

Lemma key_lt_priced (k1 k2 : sort_key) :
  is_Some k1.2 → is_Some k2.2 →
  ∃ b, key_lt k1 k2 = Ok b ∧ (b = true → key_leq k1 k2) ∧ (b = false → key_leq k2 k1).
Proof.
  destruct k1 as [s1 o1], k2 as [s2 o2]. cbn [fst snd]. intros [p1 ->] [p2 ->].
  unfold key_lt, key_leq. cbn [fst snd].
  destruct (Qeq_bool s1 s2) eqn:Heq.
  - apply Qeq_bool_iff in Heq. eexists. split; [done|].
    destruct (Qle_bool p2 p1) eqn:Hle; cbn [negb].
    + apply Qle_bool_iff in Hle. split; [done|]. intros _. right. split; [lra | done].
    + split; [|done]. intros _. right. split; [done|].
      destruct (Qlt_le_dec p1 p2) as [?|Hge]; [lra|]. apply Qle_bool_iff in Hge. congruence.
  - apply Qeq_bool_neq in Heq. eexists. split; [done|].
    destruct (Qle_bool s2 s1) eqn:Hle; cbn [negb].
    + apply Qle_bool_iff in Hle. split; [done|]. intros _. left.
      destruct (Qlt_le_dec s2 s1) as [?|Hge]; [done|]. exfalso. apply Heq. lra.
    + split; [|done]. intros _. left.
      destruct (Qlt_le_dec s1 s2) as [?|Hge]; [done|]. apply Qle_bool_iff in Hge. congruence.
Qed.

Lemma key_leq_trans k1 k2 k3 : key_leq k1 k2 → key_leq k2 k3 → key_leq k1 k3.
Proof.
  destruct k1 as [s1 [p1|]], k2 as [s2 [p2|]], k3 as [s3 [p3|]]; unfold key_leq;
    cbn [fst snd]; try done.
  intros [?|[? ?]] [?|[? ?]]; [left; lra | left; lra | left; lra | right; split; lra].
Qed.

Lemma insert_by_key_priced (x : sort_key * candidate) (l : list (sort_key * candidate)) :
  is_Some x.1.2 → Forall (fun y : sort_key * candidate => is_Some y.1.2) l →
  StronglySorted by_key l →
  ∃ r, insert_by_key x l = Ok r ∧ r ≡ₚ x :: l ∧ StronglySorted by_key r.
Proof.
  intros Hx. induction l as [|y l IH]; intros Hl Hs.
  - exists [x]. repeat split; [done|]. repeat constructor.
  - apply Forall_cons in Hl as [Hy Hl]. apply StronglySorted_inv in Hs as [Hs Hyl].
    cbn [insert_by_key].
    destruct (key_lt_priced y.1 x.1 Hy Hx) as (b & Hb & Ht & Hf). destruct b.
    + destruct (IH Hl Hs) as (r & Hr & Hperm & Hsr). exists (y :: r).
      split; [by rewrite Hb, Hr|]. split.
      * rewrite Hperm. apply perm_swap.
      * constructor; [done|]. rewrite Hperm. constructor; [by apply Ht | done].
    + exists (x :: y :: l). split; [by rewrite Hb|]. split; [done|]. constructor.
      * by constructor.
      * constructor; [by apply Hf|]. eapply Forall_impl; [exact Hyl|].
        intros z Hz. eapply key_leq_trans; [by apply Hf | done].
Qed.

Lemma sort_by_key_priced (l : list (sort_key * candidate)) :
  Forall (fun y : sort_key * candidate => is_Some y.1.2) l →
  ∃ r, sort_by_key l = Ok r ∧ r ≡ₚ l ∧ StronglySorted by_key r.
Proof.
  induction l as [|x l IH]; intros Hl.
  - exists []. repeat split; [done|]. constructor.
  - apply Forall_cons in Hl as [Hx Hl]. destruct (IH Hl) as (s & Hs & Hperm & Hsorted).
    cbn [sort_by_key].
    destruct (insert_by_key_priced x s Hx) as (r & Hr & Hperm' & Hsr); [by rewrite Hperm | done|].
    exists r. split; [by rewrite Hs|]. split; [by rewrite Hperm', Hperm | done].
Qed.

Lemma eval_decorate G cands :
  (∀ c, c ∈ cands → is_Some (g_node G !! c_product c)) →
  eval (decorate cands) G = Ok ((fun c => ((- c_score c)%Q, price_of G c, c)) <$> cands).
Proof.
  induction cands as [|c cands IH]; intros Hall; [done|].
  cbn [decorate]. destruct (Hall c ltac:(left)) as [a Ha].
  rewrite eval_bind, eval_get_price, Ha by auto with readonly.
  rewrite eval_bind, IH by (auto with readonly; intros; apply Hall; by right).
  rewrite eval_ret, fmap_cons. unfold price_of. by rewrite Ha.
Qed.

(** X16: when the product of every candidate has a price, lines 93-96
    return a rearrangement of the candidates in which a higher score comes
    first and, among equal scores, a price that is not higher, cut by
    [[:max_results]]: for a non-negative [max_results] its first
    [max_results] entries. *)
Theorem rank_sorts_by_score_then_price q G cands :
  (∀ c, c ∈ cands → is_Some (price_of G c)) →
  ∃ sorted,
    sorted ≡ₚ cands ∧
    StronglySorted (ranked_before G) sorted ∧
    eval (rank q cands) G = Ok (Result None None (Some (slice_to sorted (max_results q)))) ∧
    ((0 ≤ max_results q)%Z →
       slice_to sorted (max_results q) = take (Z.to_nat (max_results q)) sorted).
Proof.
  intros Hp.
  assert (∀ c, c ∈ cands → is_Some (g_node G !! c_product c)) as Hn.
  { intros c [p Hc]%Hp. unfold price_of in Hc. destruct (g_node G !! c_product c); [eauto|done]. }
  set (dec := (fun c => ((- c_score c)%Q, price_of G c, c)) <$> cands).
  destruct (sort_by_key_priced dec) as (s & Hs & Hperm & Hsorted).
  { apply Forall_forall. intros y (c & -> & Hc)%list_elem_of_fmap. cbn. by apply Hp. }
  exists (snd <$> s). split; [|split; [|split]].
  - rewrite Hperm. unfold dec. rewrite <- list_fmap_compose. cbn. by rewrite list_fmap_id.
  - assert (Forall (fun y : sort_key * candidate =>
              y.1 = ((- c_score y.2)%Q, price_of G y.2)) s) as Hkeys.
    { rewrite Hperm. apply Forall_forall. by intros y (c & -> & Hc)%list_elem_of_fmap. }
    clear Hs Hperm. induction Hsorted as [|y s Hs IH Hy]; [constructor|].
    apply Forall_cons in Hkeys as [Hk Hkeys].
    rewrite fmap_cons. constructor; [by apply IH|].
    apply Forall_fmap, Forall_forall. intros z Hz.
    rewrite Forall_forall in Hy, Hkeys. specialize (Hy z Hz). specialize (Hkeys z Hz).
    unfold by_key, key_leq in Hy. rewrite Hk, Hkeys in Hy. cbn [fst snd] in Hy.
    unfold ranked_before. cbn. destruct (price_of G y.2), (price_of G z.2); try done.
    destruct Hy as [?|[? ?]]; [left; lra | right; split; [lra | done]].
  - unfold rank, sorted_candidates. rewrite eval_bind by readonly_auto.
    rewrite eval_bind, eval_decorate by readonly_auto.
    fold dec. rewrite eval_bind, eval_lift, Hs by readonly_auto.
    by rewrite eval_ret.
  - intros H. unfold slice_to. by rewrite (proj2 (Z.leb_le _ _) H).
Qed.

Lemma rank_sorts_by_score_then_price_witness :
  ∃ sorted,
    sorted ≡ₚ [Candidate "P1" 4.5%Q [] []; Candidate "P2" 4.5%Q [] []; Candidate "P3" 5%Q [] []] ∧
    StronglySorted (ranked_before shelf) sorted ∧
    eval (rank (Query "P0" None None None 1)
               [Candidate "P1" 4.5%Q [] []; Candidate "P2" 4.5%Q [] []; Candidate "P3" 5%Q [] []])
         shelf = Ok (Result None None (Some (slice_to sorted 1))) ∧
    ((0 ≤ 1)%Z → slice_to sorted 1 = take (Z.to_nat 1) sorted).
Proof.
  apply (rank_sorts_by_score_then_price (Query "P0" None None None 1) shelf).
  intros c Hc. repeat (apply elem_of_cons in Hc as [-> | Hc]);
    [apply (bool_decide_unpack _); by vm_compute..|by apply elem_of_nil in Hc].
Defined.

(** The highest score first; among equal scores the lower price first. *)
Example rank_three :
  eval (rank (Query "P0" None None None 2)
             [Candidate "P1" 4.5%Q [] []; Candidate "P2" 4.5%Q [] []; Candidate "P3" 5%Q [] []])
       shelf
  = Ok (Result None None (Some [Candidate "P3" 5%Q [] []; Candidate "P2" 4.5%Q [] []])).
Proof. by vm_compute. Qed.

(** ** Explaining a candidate *)

Example explanation_of_pencil :
  eval (human_explanation (fun _ => "80") "P1"
          (Candidate "P2" 4.0%Q ["same_category"; "missing_tags:a,b"; "cheaper_or_equal_price"]
             ["P1"; "C1"; "P2"])) shop
  = Ok (Indexed ("Pencil is in the same category as the requested product. " +:+
                 "Missing required tags: a,b. " +:+
                 "Cheaper or equal in price compared to requested product. " +:+
                 "Price: ₹80; In stock: True; Brand: Y")).
Proof. by vm_compute. Qed.

Lemma tag_sentences_error reasons :
  tag_sentences reasons = IndexError ↔ Exists no_colon reasons.
Proof.
  induction reasons as [|r rest IH]; cbn [tag_sentences].
  - split; [done | by intros ?%Exists_nil].
  - rewrite Exists_cons, <- IH. unfold no_colon. cbv zeta.
    destruct (String.prefix "missing_tags" r); [destruct (after_colon r)|];
      destruct (tag_sentences rest); intuition congruence.
Qed.

Lemma tag_sentences_missing reasons l r m :
  tag_sentences reasons = Indexed l → r ∈ reasons →
  String.prefix "missing_tags" r = true → after_colon r = Some m →
  ("Missing required tags: " +:+ m +:+ ".") ∈ l.
Proof.
  revert l. induction reasons as [|r' rest IH]; intros l Hl Hin Hp Ha.
  - by apply elem_of_nil in Hin.
  - cbn [tag_sentences] in Hl. cbv zeta in Hl.
    destruct (if String.prefix "missing_tags" r' then _ else _) as [s|] eqn:Hs; [|done].
    destruct (tag_sentences rest) as [l'|] eqn:Hrest; [|done].
    injection Hl as <-. apply elem_of_cons in Hin as [<- | Hin].
    + rewrite Hp, Ha in Hs. injection Hs as <-.
      apply elem_of_app. right. apply elem_of_app. left. by apply list_elem_of_singleton.
    + apply elem_of_app. right. apply elem_of_app. right. by apply IH.
Qed.

Section explanation_facts.
Variable show_number : Q → string.

Lemma eval_summary_sentence G c a :
  g_node G !! c = Some a →
  ∃ line, eval (summary_sentence show_number c) G = Ok line.
Proof. intros Ha. unfold summary_sentence. eval_steps. eauto. Qed.

Lemma eval_explanation_sentences G requested entry a :
  g_node G !! c_product entry = Some a →
  match tag_sentences (c_reasons entry) with
  | IndexError => eval (explanation_sentences show_number requested entry) G = Ok IndexError
  | Indexed tags =>
      ∃ line, eval (explanation_sentences show_number requested entry) G =
              Ok (Indexed (category_sentence (default (c_product entry) (a_name a))
                             (c_reasons entry) ++
                           tags ++ hint_sentences (c_reasons entry) ++ [line]))
  end.
Proof.
  intros Ha. unfold explanation_sentences. cbv zeta.
  rewrite eval_bind, eval_node_attrs, Ha by auto with readonly.
  destruct (tag_sentences (c_reasons entry)) as [tags|]; [|done].
  destruct (eval_summary_sentence G _ a Ha) as [line Hline]. exists line.
  rewrite eval_bind, Hline by (unfold summary_sentence; readonly_auto). done.
Qed.

Lemma readonly_explanation_sentences requested entry :
  readonly (explanation_sentences show_number requested entry).
Proof. unfold explanation_sentences, summary_sentence. readonly_auto. Qed.

(** X17: the errors of [human_explanation]: [KeyError] when the candidate is
    not a node; [IndexError] when a reason starts with [missing_tags] and
    holds no colon; in every other case a text is returned. *)
Theorem human_explanation_errors G requested entry :
  match g_node G !! c_product entry with
  | None => eval (human_explanation show_number requested entry) G = Raise KeyError
  | Some _ =>
      (Exists no_colon (c_reasons entry) →
         eval (human_explanation show_number requested entry) G = Ok IndexError) ∧
      (¬ Exists no_colon (c_reasons entry) →
         ∃ text, eval (human_explanation show_number requested entry) G = Ok (Indexed text))
  end.
Proof.
  unfold human_explanation.
  rewrite eval_bind by apply readonly_explanation_sentences.
  destruct (g_node G !! c_product entry) as [a|] eqn:Ha.
  - pose proof (eval_explanation_sentences G requested entry a Ha) as H.
    split; intros Hex.
    + apply tag_sentences_error in Hex. rewrite Hex in H. by rewrite H.
    + destruct (tag_sentences (c_reasons entry)) as [tags|] eqn:Ht.
      * destruct H as [line ->]. rewrite eval_ret. eauto.
      * exfalso. by apply Hex, tag_sentences_error.
  - unfold explanation_sentences. cbv zeta.
    by rewrite eval_bind, eval_node_attrs, Ha by auto with readonly.
Qed.
End explanation_facts.

Lemma human_explanation_errors_witness :
  eval (human_explanation (fun _ => "") "P1" (Candidate "P2" 0%Q ["missing_tags"] [])) shop
  = Ok IndexError.
Proof.
  pose proof (human_explanation_errors (fun _ => "") shop "P1"
                (Candidate "P2" 0%Q ["missing_tags"] [])) as H.
  change (g_node shop !! c_product (Candidate "P2" 0%Q ["missing_tags"] []))
    with (g_node shop !! "P2") in H.
  destruct (g_node shop !! "P2") eqn:E; [|by vm_compute in E].
  apply (proj1 H). apply Exists_cons. left. by split.
Defined.

(** What [score_candidate] returns, rule by rule. *)
Lemma score_candidate_returns G requested candidate tags ob s reasons :
  eval (score_candidate requested candidate tags ob) G = Ok (s, reasons) →
  ∃ ar ac (c1 : contribution),
    g_node G !! requested = Some ar ∧ g_node G !! candidate = Some ac ∧
    (c1 = (3.0%Q, Some "same_category") ∨ c1 = (0%Q, None)) ∧
    (s == 0.0 + c1.1 + (brand_contribution ar ac ob).1 + (tags_contribution ac tags).1 +
         (price_contribution ar ac).1)%Q ∧
    reasons = option_list c1.2 ++ option_list (brand_contribution ar ac ob).2 ++
              option_list (tags_contribution ac tags).2 ++
              option_list (price_contribution ar ac).2.
Proof.
  intros H.
  destruct (g_node G !! requested) as [ar|] eqn:Hr;
    [|rewrite score_candidate_missing_node in H by auto; done].
  destruct (g_node G !! candidate) as [ac|] eqn:Hc;
    [|rewrite score_candidate_missing_node in H by auto; done].
  pose proof (score_candidate_sum requested candidate ar ac tags ob G Hr Hc) as Hs.
  rewrite H in Hs. unfold sum_of_rules in Hs.
  rewrite eval_bind, eval_category_contribution in Hs by auto with readonly.
  exists ar, ac.
  destruct (_ && _ && _); [|destruct (joined _ _ _); [done|]];
    cbv zeta in Hs; rewrite eval_ret in Hs; destruct Hs as [Hs ->]; eexists;
    (split; [done|]; split; [done|]; split; [|split; [exact Hs | done]]); auto.
Qed.

Lemma scored_reasons_have_colon G requested candidate tags ob s reasons :
  eval (score_candidate requested candidate tags ob) G = Ok (s, reasons) →
  ¬ Exists no_colon reasons.
Proof.
  intros (ar & ac & c1 & _ & _ & Hc1 & _ & ->)%score_candidate_returns.
  rewrite !Exists_app. intros [H | [H | [H | H]]]; revert H.
  - destruct Hc1 as [-> | ->]; cbn [snd option_list].
    + intros [[? ?]|[]%Exists_nil]%Exists_cons. done.
    + by intros ?%Exists_nil.
  - unfold brand_contribution. repeat case_match; cbn [snd option_list];
      solve [by intros ?%Exists_nil | intros [[? ?]|[]%Exists_nil]%Exists_cons; done].
  - unfold tags_contribution. cbv zeta. repeat case_match; cbn [snd option_list];
      solve [by intros ?%Exists_nil | intros [[? ?]|[]%Exists_nil]%Exists_cons; done].
  - unfold price_contribution. repeat case_match; cbn [snd option_list];
      solve [by intros ?%Exists_nil | intros [[? ?]|[]%Exists_nil]%Exists_cons; done].
Qed.

Section scored_explanations.
Variable show_number : Q → string.

(** X18: [human_explanation] returns a text for every entry made of a score
    and reasons that [score_candidate] returned: the reasons it builds never
    make the split at the colon fail. *)
Theorem scored_candidate_is_explained G requested candidate tags ob s reasons path :
  eval (score_candidate requested candidate tags ob) G = Ok (s, reasons) →
  ∃ text, eval (human_explanation show_number requested
                  (Candidate candidate s reasons path)) G = Ok (Indexed text).
Proof.
  intros H.
  pose proof (scored_reasons_have_colon _ _ _ _ _ _ _ H) as Hgood.
  destruct (score_candidate_returns _ _ _ _ _ _ _ H) as (ar & ac & _ & _ & Hc & _).
  pose proof (eval_explanation_sentences show_number G requested
                (Candidate candidate s reasons path) ac Hc) as He.
  cbn [c_product c_reasons] in He.
  destruct (tag_sentences reasons) as [tl|] eqn:Ht;
    [|exfalso; by apply Hgood, tag_sentences_error].
  destruct He as [line He]. unfold human_explanation.
  rewrite eval_bind by apply readonly_explanation_sentences.
  rewrite He, eval_ret. eauto.
Qed.

(** X19: when the candidate lacks a required tag, the explanation of its
    scored entry holds the sentence on missing required tags, with the
    missing tags in sorted order and joined by commas. *)
Theorem missing_tags_are_explained G requested candidate ac tags ob s reasons path :
  g_node G !! candidate = Some ac →
  ¬ tags ⊆ list_to_set (default [] (a_tags ac)) →
  eval (score_candidate requested candidate tags ob) G = Ok (s, reasons) →
  ∃ expl, eval (explanation_sentences show_number requested
                  (Candidate candidate s reasons path)) G = Ok (Indexed expl) ∧
          ("Missing required tags: " +:+
           join_comma (sorted_strings (tags ∖ list_to_set (default [] (a_tags ac)))) +:+ ".")
            ∈ expl.
Proof.
  intros Hc Hsub H.
  pose proof (scored_reasons_have_colon _ _ _ _ _ _ _ H) as Hgood.
  destruct (score_candidate_returns _ _ _ _ _ _ _ H) as (ar & ac' & c1 & _ & Hc' & _ & _ & Hrs).
  rewrite Hc in Hc'. injection Hc' as <-.
  pose proof (eval_explanation_sentences show_number G requested
                (Candidate candidate s reasons path) ac Hc) as He.
  cbn [c_product c_reasons] in He.
  destruct (tag_sentences reasons) as [tl|] eqn:Ht;
    [|exfalso; by apply Hgood, tag_sentences_error].
  destruct He as [line He]. eexists. split; [exact He|].
  apply elem_of_app. right. apply elem_of_app. left.
  set (cand_tags := list_to_set (default [] (a_tags ac)) : gset string) in *.
  assert (tags_contribution ac tags =
          ((0.5 * inject_Z (Z.of_nat (size (tags ∩ cand_tags))))%Q,
           Some ("missing_tags:" +:+ join_comma (sorted_strings (tags ∖ cand_tags)))))
    as Htc.
  { unfold tags_contribution. cbv zeta. fold cand_tags.
    rewrite bool_decide_eq_false_2.
    2:{ intros ->. apply Hsub. apply empty_subseteq. }
    rewrite bool_decide_eq_false_2.
    2:{ intros Heq. apply Hsub. rewrite <- Heq. apply intersection_subseteq_r. }
    assert (tags ∖ (tags ∩ cand_tags) = tags ∖ cand_tags) as ->; [|done].
    apply set_eq. intros x. rewrite !elem_of_difference, elem_of_intersection. tauto. }
  eapply (tag_sentences_missing reasons tl
            ("missing_tags:" +:+ join_comma (sorted_strings (tags ∖ cand_tags)))); [done| |done..].
  rewrite Hrs, Htc. cbn [snd option_list].
  apply elem_of_app. right. apply elem_of_app. right. apply elem_of_app. left.
  by apply list_elem_of_singleton.
Qed.
End scored_explanations.

Lemma scored_candidate_is_explained_witness :
  ∃ text, eval (human_explanation (fun _ => "150") "P1"
                  (Candidate "P2" 2.75000%Q ["same_category"; "more_expensive"] [])) pricey
          = Ok (Indexed text).
Proof.
  apply (scored_candidate_is_explained (fun _ => "150") pricey "P1" "P2" ∅ None).
  by vm_compute.
Defined.

Lemma missing_tags_are_explained_witness :
  ∃ expl, eval (explanation_sentences (fun _ => "10") "P1"
                  (Candidate "P2" 1.5000%Q
                     ["same_brand"; "missing_tags:a,b,c"; "cheaper_or_equal_price"] []))
               unbranded = Ok (Indexed expl) ∧
          ("Missing required tags: " +:+
           join_comma (sorted_strings (list_to_set ["b"; "a"; "c"] ∖ list_to_set [])) +:+ ".")
            ∈ expl.
Proof.
  apply (missing_tags_are_explained (fun _ => "10") unbranded "P1" "P2"
           (Attrs (Some "product") (Some "Ink") (Some 10%Q) None (Some true) None None)
           (list_to_set ["b"; "a"; "c"]) None).
  - reflexivity.
  - apply (bool_decide_unpack _). by vm_compute.
  - by vm_compute.
Defined.
